(** * VRAMancer, csrc/vtp_core.cpp: the hotness scorer

    A shallow embedding of [compute_hotness_scores], the batch scorer
    that the hierarchical memory manager calls to rank KV-cache pages,
    and the properties of it that the specification states.

    - A C++ [double] is a binary64 number: Rocq's primitive [float],
      whose operations are specified by [SpecFloat] through
      [FloatAxioms].  Nothing is idealised to real numbers: overflow,
      signed zeros, infinities and NaN are those of the machine.
    - A [py::dict] is a finite map ([gmap]) from keys to Python objects.
      The scorer is first written as a function of the two
      dictionaries; the call as the interpreter sees it, on
      dictionaries that live on a heap and are passed by reference,
      is [call_compute_hotness_scores].
    - [item.second.cast<double>()] either yields a double or throws
      [py::cast_error]; the conversion belongs to pybind11, so it is a
      parameter of the model.
    - [std::exp] belongs to the C library, so it is a parameter as
      well; what a proof needs of it is a hypothesis of its theorem. *)

From Stdlib Require Import ZArith Floats Lia Bool.
From stdpp Require Import gmap strings.

(** * Part I: definitions *)

(** ** Results of a call that may throw *)

Inductive exception := cast_error.

Inductive result (A : Type) :=
  | Ok (a : A)
  | Raise (e : exception).
Arguments Ok {A} a.
Arguments Raise {A} e.

#[global] Instance result_bind : MBind result := fun A B k r =>
  match r with
  | Ok a => k a
  | Raise e => Raise e
  end.

(** ** The scorer *)

(** [M_LN2] of <cmath>: the double nearest to ln 2. *)
Definition M_LN2 : float := 0x1.62e42fefa39efp-1%float.

Section Scorer.
Local Open Scope float_scope.
(** Keys are hashable Python objects compared by equality. *)
Context `{Countable Key}.
(** Python objects held as values, and pybind11's conversion of one to
    a double ([None] when it throws). *)
Context {PyObject : Type}.
Variable cast_double : PyObject -> option float.
(** [std::exp]. *)
Variable exp : float -> float.

Definition cast (o : PyObject) : result float :=
  match cast_double o with
  | Some d => Ok d
  | None => Raise cast_error
  end.

(** The body of the [for] loop for one item of [access_counts], up to
    the value that is stored under [key]. *)
Definition item_score (last_access_times : gmap Key PyObject)
    (current_time decay_constant : float)
    (key : Key) (value : PyObject) : result float :=
  count ← cast value;
  last_time ← match last_access_times !! key with
              | Some t => cast t
              | None => Ok current_time
              end;
  let dt := current_time - last_time in
  let dt := if dt <? 0 then 0 else dt in
  let score := count * exp (- decay_constant * dt) in
  Ok score.

(** The loop over the items, with [scores[key] = score] at each turn. *)
Fixpoint score_items (last_access_times : gmap Key PyObject)
    (current_time decay_constant : float)
    (items : list (Key * PyObject)) (scores : gmap Key float)
    : result (gmap Key float) :=
  match items with
  | [] => Ok scores
  | (key, value) :: rest =>
      score ← item_score last_access_times current_time decay_constant key value;
      score_items last_access_times current_time decay_constant rest
        (<[key := score]> scores)
  end.

Definition compute_hotness_scores
    (access_counts last_access_times : gmap Key PyObject)
    (current_time half_life : float) : result (gmap Key float) :=
  let scores : gmap Key float := ∅ in
  let decay_constant := M_LN2 / half_life in
  score_items last_access_times current_time decay_constant
    (map_to_list access_counts) scores.

(** The count of a key, and the time of its last access as the loop
    reads it: the entry of [last_access_times], or [current_time]. *)
Definition count_of (access_counts : gmap Key PyObject) (k : Key) : option float :=
  access_counts !! k ≫= cast_double.

Definition last_time_of (last_access_times : gmap Key PyObject)
    (current_time : float) (k : Key) : option float :=
  match last_access_times !! k with
  | Some t => cast_double t
  | None => Some current_time
  end.

(** Every value that the loop converts is a number. *)
Definition numeric (access_counts last_access_times : gmap Key PyObject) : Prop :=
  ∀ k v, access_counts !! k = Some v →
    is_Some (cast_double v) ∧
    ∀ t, last_access_times !! k = Some t → is_Some (cast_double t).
End Scorer.

(** ** The call on the heap of the interpreter *)

(** The dictionaries of a Python program live on a heap and are passed
    by reference: a [loc] is the identity of an object. *)
Definition loc := positive.

Section Calls.
Local Open Scope float_scope.
Context `{Countable Key} {PyObject : Type}.
Variable cast_double : PyObject -> option float.
Variable exp : float -> float.
(** The Python float that pybind11 makes of a double, in
    [scores[key] = score]. *)
Variable py_float : float -> PyObject.
(** The allocator: the identity that the next object gets. *)
Variable alloc : gmap loc (gmap Key PyObject) -> loc.

(** The heap: the dictionaries that exist, by identity. *)
Local Abbreviation heap := (gmap loc (gmap Key PyObject)).

(** The loop: each turn reads [last_access_times] where it is on the
    heap, and writes [scores[key] = score] where [scores] is.  The
    conversion of a value and [std::exp] are functions: a Python float
    or int converts without running code of the program. *)
Fixpoint store_scores (last_access_times scores : loc)
    (current_time decay_constant : float)
    (items : list (Key * PyObject)) (h : heap) : result unit * heap :=
  match items with
  | [] => (Ok (), h)
  | (key, value) :: rest =>
      match item_score cast_double exp (h !!! last_access_times)
              current_time decay_constant key value with
      | Ok score =>
          store_scores last_access_times scores current_time decay_constant rest
            (<[scores := <[key := py_float score]> (h !!! scores)]> h)
      | Raise e => (Raise e, h)
      end
  end.

(** The call.  [py::dict scores] is a new dictionary, and the caller
    gets a reference to it; when a conversion throws, the stack is
    unwound and the new dictionary is freed. *)
Definition call_compute_hotness_scores (access_counts last_access_times : loc)
    (current_time half_life : float) (h : heap) : result loc * heap :=
  let scores := alloc h in
  let h := <[scores := ∅]> h in
  let decay_constant := M_LN2 / half_life in
  match store_scores last_access_times scores current_time decay_constant
          (map_to_list (h !!! access_counts)) h with
  | (Ok _, h) => (Ok scores, h)
  | (Raise e, h) => (Raise e, delete scores h)
  end.

(** What the caller sees of a call: the dictionary behind the
    reference that is returned, or the exception. *)
Definition returned (c : result loc * heap) : result (gmap Key PyObject) :=
  match c.1 with
  | Ok l => Ok (c.2 !!! l)
  | Raise e => Raise e
  end.
End Calls.

(** ** The score in the words of the specification *)

(** [max(0, x)]: a negative delta is clamped to zero. *)
Definition max_0 (x : float) : float := if (x <? 0)%float then 0%float else x.

(** Steps 1 and 2b-2c of the algorithm of the specification. *)
Definition spec_score (exp : float -> float)
    (accessCount lastTime currentTime halfLife : float) : float :=
  let decayConstant := (M_LN2 / halfLife)%float in
  let dt := max_0 (currentTime - lastTime)%float in
  (accessCount * exp (- decayConstant * dt))%float.

(** ** What is assumed of [std::exp] *)

(** The special values that C (Annex F) and IEC 60559 fix. *)
Class IEC60559_exp (exp : float -> float) : Prop := {
  exp_zero : exp 0%float = 1%float;
  exp_neg_zero : exp (-0)%float = 1%float;
  exp_neg_infinity : exp neg_infinity = 0%float;
  exp_infinity : exp infinity = infinity;
  exp_nan : exp nan = nan
}.

(** The order properties of the exponential that a faithful
    implementation keeps. *)
Definition exp_monotone (exp : float -> float) : Prop :=
  ∀ x y, (x <=? y)%float = true → (exp x <=? exp y)%float = true.

Definition exp_nonnegative (exp : float -> float) : Prop :=
  ∀ x, (exp x <? 0)%float = false.

(** The accuracy of the exponential at [-ln 2].  The doubles 16 units
    in the last place below and above [M_LN2], and the doubles
    [1/2 - 2^-32] and [1/2 + 2^-32]. *)
Definition ln2_below : float := 0x1.62e42fefa39dfp-1%float.
Definition ln2_above : float := 0x1.62e42fefa39ffp-1%float.
Definition half_below : float := 0x1.fffffffcp-2%float.
Definition half_above : float := 0x1.00000002p-1%float.

(** On the doubles within 16 units in the last place of [-M_LN2] the
    value of [exp] is within 2^-32 (about 2.3e-10) of 1/2.  The
    exponential itself is within 2^-49 of 1/2 there, so this leaves
    an implementation an error of some 2^17 units in the last place. *)
Definition exp_accurate_near_ln2 (exp : float -> float) : Prop :=
  ∀ x, (- ln2_above <=? x)%float = true → (x <=? - ln2_below)%float = true →
    (half_below <=? exp x)%float = true ∧ (exp x <=? half_above)%float = true.

(** ** A concrete instance, to run the model on *)

(** Python values: floats, and strings as an example of a value that
    does not convert. *)
Inductive py_value :=
  | PyFloat (d : float)
  | PyStr (s : string).

Definition py_cast (o : py_value) : option float :=
  match o with
  | PyFloat d => Some d
  | PyStr _ => None
  end.

(** A step function with the special values of [exp], monotone, 1/2
    on the negative numbers and 2 on the positive ones. *)
Definition exp_step (x : float) : float :=
  match Prim2SF x with
  | S754_nan => nan
  | S754_zero _ => 1%float
  | S754_infinity true => 0%float
  | S754_infinity false => infinity
  | S754_finite true _ _ => 0.5%float
  | S754_finite false _ _ => 2%float
  end.

(** The example of the specification (section 8), and variations of it. *)
Definition example_access_counts : gmap string py_value :=
  PyFloat <$> ({["a" := 10; "b" := 4]} : gmap string float)%float.

Definition example_last_access_times : gmap string py_value :=
  PyFloat <$> ({["a" := 0]} : gmap string float)%float.

(** A timestamp for a page that has no count. *)
Definition stale_last_access_times : gmap string py_value :=
  PyFloat <$> ({["a" := 0; "c" := 5]} : gmap string float)%float.

(** A timestamp later than the time of evaluation. *)
Definition future_last_access_times : gmap string py_value :=
  PyFloat <$> ({["a" := 20]} : gmap string float)%float.

(** A negative count. *)
Definition penalized_access_counts : gmap string py_value :=
  PyFloat <$> ({["a" := -1]} : gmap string float)%float.

(** Both pages accessed at the same time. *)
Definition uniform_last_access_times : gmap string py_value :=
  PyFloat <$> ({["a" := 0; "b" := 0]} : gmap string float)%float.

(** Two pages with the same count. *)
Definition tied_access_counts : gmap string py_value :=
  PyFloat <$> ({["a" := 4; "b" := 4]} : gmap string float)%float.

(** The least positive double, 2^-1074. *)
Definition tiny_half_life : float := 0x1p-1074%float.

(** A last access so late that adding a half-life of 1 to it changes
    nothing: the doubles near 1e17 are 16 apart. *)
Definition late_last_access_times : gmap string py_value :=
  PyFloat <$> ({["a" := 1e17]} : gmap string float)%float.

(** A count that is the least positive double. *)
Definition subnormal_access_counts : gmap string py_value :=
  PyFloat <$> ({["a" := 0x1p-1074]} : gmap string float)%float.

(** An allocator: the least identity that is not in use. *)
Definition next_loc {A} (h : gmap loc A) : loc := fresh (dom h).

(** A heap with the two dictionaries of the example, and one where
    equal dictionaries live elsewhere, among others. *)
Definition example_heap : gmap loc (gmap string py_value) :=
  {[1%positive := example_access_counts; 2%positive := example_last_access_times]}.

Definition moved_heap : gmap loc (gmap string py_value) :=
  {[3%positive := stale_last_access_times; 5%positive := example_last_access_times;
    9%positive := example_access_counts]}.

(** ** Binary64 rounding, as arithmetic on integers *)

(** [M / 2^n] rounded to the nearest integer, ties to even. *)
Definition rne (M n : Z) : Z :=
  let q := (M / 2 ^ n)%Z in
  match (2 * (M mod 2 ^ n) ?= 2 ^ n)%Z with
  | Lt => q
  | Eq => if Z.even q then q else (q + 1)%Z
  | Gt => (q + 1)%Z
  end.

(** The binary64 number nearest to [(-1)^s * M * 2^E], for [M > 0]. *)
Definition round_fin (s : bool) (M E : Z) : spec_float :=
  let t := fexp prec emax (Z.log2 M + 1 + E) in
  let m' := rne M (t - E) in
  if (m' =? 0)%Z then S754_zero s
  else if (m' <? 2 ^ prec)%Z then
    if (t <=? emax - prec)%Z then S754_finite s (Z.to_pos m') t else S754_infinity s
  else
    if (t + 1 <=? emax - prec)%Z then S754_finite s (Z.to_pos (2 ^ (prec - 1))) (t + 1)
    else S754_infinity s.

Definition SFone : spec_float := S754_finite false 4503599627370496 (-52).

Definition SFnonneg (x : spec_float) : bool := SFleb (S754_zero false) x.

Definition SFfinite (x : spec_float) : Prop :=
  match x with
  | S754_zero _ | S754_finite _ _ _ => True
  | _ => False
  end.

Definition has_sign (s : bool) (x : spec_float) : Prop :=
  match x with
  | S754_nan => True
  | S754_zero s' | S754_infinity s' | S754_finite s' _ _ => s' = s
  end.

(** [z1 * 2^e1 <= z2 * 2^e2], on integers. *)
Definition scaled_le (z1 e1 z2 e2 : Z) : Prop :=
  (z1 * 2 ^ (e1 - Z.min e1 e2) <= z2 * 2 ^ (e2 - Z.min e1 e2))%Z.

(** A finite binary64 number as an integer and an exponent; a zero
    takes the largest exponent, so that aligning it with another
    number changes nothing. *)
Definition SFrepr (x : spec_float) : Z * Z :=
  match x with
  | S754_finite s m e => (cond_Zopp s (Zpos m), e)
  | _ => (0%Z, (emax - prec)%Z)
  end.

(** The sign of a zero forgotten. *)
Definition SFunsigned_zero (x : spec_float) : spec_float :=
  match x with
  | S754_zero _ => S754_zero false
  | _ => x
  end.

(** A mantissa [m] at the exponent [t] as a binary64 number: a
    mantissa of 2^53 is carried to the next exponent, and an exponent
    above the largest gives an infinity. *)
Definition round_carry (s : bool) (m t : Z) : spec_float :=
  if (m =? 0)%Z then S754_zero s
  else if (m <? 2 ^ prec)%Z then
    if (t <=? emax - prec)%Z then S754_finite s (Z.to_pos m) t else S754_infinity s
  else
    if (t + 1 <=? emax - prec)%Z then S754_finite s (Z.to_pos (2 ^ (prec - 1))) (t + 1)
    else S754_infinity s.

(** A finite binary64 number in units of 2^-1074, the least positive
    double: every finite double is a whole number of them. *)
Definition SFunits (x : spec_float) : Z :=
  match x with
  | S754_finite s m e => cond_Zopp s (Zpos m * 2 ^ (e - emin))
  | _ => 0%Z
  end.

Definition units (x : float) : Z := SFunits (Prim2SF x).

(** [score] is [count / 2] within a relative error of 1e-9:
    [|score - count / 2| <= 1e-9 * |count / 2|], that is
    [1e9 * |2 * score - count| <= |count|], on the exact values of the
    two doubles. *)
Definition within_1e9_of_half (score count : float) : bool :=
  is_finite score &&
  (10 ^ 9 * Z.abs (2 * units score - units count) <=? Z.abs (units count))%Z.

(** Zero, or a normal number: finite and at least 2^-1022 in magnitude. *)
Definition zero_or_normal (x : float) : bool :=
  ((x =? 0) || ((0x1p-1022 <=? abs x) && (abs x <? infinity)))%float.

Ltac fexp_lia := unfold fexp, SpecFloat.emin, prec, emax in *; lia.

(** * Part II: binary64 arithmetic

    Facts about the operations of [SpecFloat] that the scorer relies
    on: what multiplying by one or by zero gives, the sign of a
    difference, and that rounding keeps the order. *)

Section Binary64.
Local Open Scope Z_scope.

(** *** Digits and shifts *)
Lemma digits2_pos_log2 m : Zpos (digits2_pos m) = Z.log2 (Zpos m) + 1.
Proof.
  assert (Hs : forall p, digits2_pos p = Pos.size p) by (induction p; simpl; congruence).
  rewrite Hs. destruct m; simpl; lia.
Qed.

Lemma iter_pos_nat {A} (f : A -> A) p x : @SpecFloat.iter_pos A f p x = Nat.iter (Pos.to_nat p) f x.
Proof.
  revert x. induction p as [p IH|p IH|]; intros x; cbn [SpecFloat.iter_pos].
  - rewrite !IH, Pos2Nat.inj_xI, <- Nat.iter_add.
    replace (S (2 * Pos.to_nat p)) with (S (Pos.to_nat p + Pos.to_nat p)) by lia.
    symmetry. apply Nat.iter_succ_r.
  - rewrite !IH, Pos2Nat.inj_xO, <- Nat.iter_add. f_equal. lia.
  - reflexivity.
Qed.

Lemma shr_1_nonneg m r s : 0 <= m ->
  shr_1 (Build_shr_record m r s) = Build_shr_record (m / 2) (Z.odd m) (r || s).
Proof.
  intros Hm. destruct m as [|[p|p|]|p]; try lia; cbn [shr_1]; try reflexivity.
  - replace (Z.pos p~1 / 2) with (Z.pos p); [reflexivity|].
    apply Z.div_unique with 1; lia.
  - replace (Z.pos p~0 / 2) with (Z.pos p); [reflexivity|].
    apply Z.div_unique with 0; lia.
Qed.

(** [n + 1] right shifts: the quotient, the round bit and the sticky bit. *)
Lemma shr_iter M n : 0 <= M ->
  Nat.iter (S n) shr_1 (Build_shr_record M false false) =
  Build_shr_record (M / 2 ^ Z.of_nat (S n)) (Z.odd (M / 2 ^ Z.of_nat n))
    (negb (M mod 2 ^ Z.of_nat n =? 0)).
Proof.
  intros HM. induction n as [|n IH].
  - cbn [Nat.iter]. rewrite shr_1_nonneg by assumption. cbn.
    rewrite Z.div_1_r, Z.mod_1_r. reflexivity.
  - rewrite Nat.iter_succ, IH.
    assert (Hq : 0 <= M / 2 ^ Z.of_nat (S n)) by (apply Z.div_pos; lia).
    rewrite shr_1_nonneg by assumption. f_equal.
    + rewrite Z.div_div by lia. f_equal.
      rewrite (Nat2Z.inj_succ (S n)), Z.pow_succ_r by lia. lia.
    + rewrite (Nat2Z.inj_succ n), Z.pow_succ_r by lia.
      rewrite (Z.mul_comm 2), Z.rem_mul_r by lia.
      set (h := 2 ^ Z.of_nat n). assert (0 < h) by (apply Z.pow_pos_nonneg; lia).
      assert (0 <= M mod h < h) by (apply Z.mod_pos_bound; lia).
      rewrite (Zmod_odd (M / h)).
      destruct (Z.odd (M / h)); destruct (Z.eqb_spec (M mod h) 0); cbn;
        symmetry; try apply Z.eqb_neq; try apply Z.eqb_eq; nia.
Qed.

Lemma rne_bounds M n : 0 <= M -> 0 <= n -> M / 2 ^ n <= rne M n <= M / 2 ^ n + 1.
Proof.
  intros. unfold rne. destruct (_ ?= _); [destruct (Z.even _)|..]; lia.
Qed.

Lemma rne_0 M : rne M 0 = M.
Proof.
  unfold rne. rewrite Z.pow_0_r, Z.div_1_r, Z.mod_1_r. reflexivity.
Qed.

(** Shifting right and rounding on the round and sticky bits is [rne]. *)
Lemma shr_rne M e n : 0 <= M -> 0 <= n ->
  let mrs := fst (shr (Build_shr_record M false false) e n) in
  round_nearest_even (shr_m mrs) (loc_of_shr_record mrs) = rne M n /\
  snd (shr (Build_shr_record M false false) e n) = e + n.
Proof.
  intros HM Hn. destruct n as [|p|p]; try lia; cbn [shr fst snd].
  - cbn. rewrite rne_0. split; [reflexivity|lia].
  - split; [|reflexivity]. rewrite iter_pos_nat.
    destruct (Pos2Nat.is_succ p) as [k Hk]. rewrite Hk, shr_iter by assumption.
    replace (Z.pos p) with (Z.of_nat (S k)) by lia.
    cbn [shr_m loc_of_shr_record]. unfold rne.
    rewrite (Nat2Z.inj_succ k), Z.pow_succ_r by lia.
    set (h := 2 ^ Z.of_nat k). assert (0 < h) by (apply Z.pow_pos_nonneg; lia).
    rewrite (Z.mul_comm 2 h), Z.rem_mul_r by lia.
    assert (0 <= M mod h < h) by (apply Z.mod_pos_bound; lia).
    rewrite (Zmod_odd (M / h)).
    destruct (Z.odd (M / h)); destruct (Z.eqb_spec (M mod h) 0); cbn [negb loc_of_shr_record round_nearest_even].
    + replace (2 * (M mod h + h * 1) ?= h * 2) with Eq; [reflexivity|]. symmetry. apply Z.compare_eq_iff. lia.
    + replace (2 * (M mod h + h * 1) ?= h * 2) with Gt; [reflexivity|]. symmetry. apply Z.compare_gt_iff. lia.
    + replace (2 * (M mod h + h * 0) ?= h * 2) with Lt; [reflexivity|]. symmetry. apply Z.compare_lt_iff. lia.
    + replace (2 * (M mod h + h * 0) ?= h * 2) with Lt; [reflexivity|]. symmetry. apply Z.compare_lt_iff. lia.
Qed.

Lemma rne_lt_pow M n k : 0 <= M -> 0 <= n -> 0 <= k -> M < 2 ^ (n + k) -> rne M n <= 2 ^ k.
Proof.
  intros HM Hn Hk Hlt.
  assert (M / 2 ^ n < 2 ^ k).
  { apply Z.div_lt_upper_bound; [apply Z.pow_pos_nonneg; lia|].
    rewrite <- Z.pow_add_r by lia. assumption. }
  pose proof (rne_bounds M n HM Hn). lia.
Qed.

Lemma shr_nonpos mrs e n : n <= 0 -> shr mrs e n = (mrs, e).
Proof. destruct n; [reflexivity|lia|reflexivity]. Qed.

(** The rounding of [SpecFloat], for an exact positive input that need
    not be shifted left, is [round_fin]. *)
Lemma binary_round_aux_spec s M E :
  0 < M -> E <= fexp prec emax (Z.log2 M + 1 + E) ->
  binary_round_aux prec emax s M E loc_Exact = round_fin s M E.
Proof.
  intros HM HE. destruct M as [|M|M]; try lia. clear HM. unfold binary_round_aux, shr_fexp, round_fin.
  cbn [Zdigits2 shr_record_of_loc]. rewrite digits2_pos_log2.
  set (t := fexp prec emax (Z.log2 (Z.pos M) + 1 + E)) in *.
  assert (Ht : emin <= t /\ Z.log2 (Z.pos M) + 1 + E - prec <= t) by (unfold t; fexp_lia).
  destruct (shr_rne (Z.pos M) E (t - E)) as [Hm He]; [lia..|].
  destruct (shr _ E (t - E)) as [mrs e']. cbn [fst snd] in Hm, He. rewrite Hm.
  replace e' with t by lia. clear Hm He mrs e'.
  assert (Hb : 0 <= rne (Z.pos M) (t - E) <= 2 ^ prec).
  { split.
    - pose proof (rne_bounds (Z.pos M) (t - E)).
      assert (0 <= Z.pos M / 2 ^ (t - E)) by (apply Z.div_pos; [lia|apply Z.pow_pos_nonneg; lia]).
      lia.
    - apply rne_lt_pow; [lia..| |]. { unfold prec; lia. }
      pose proof (Z.log2_spec (Z.pos M)).
      eapply Z.lt_le_trans; [apply H; lia|]. apply Z.pow_le_mono_r; lia. }
  set (m' := rne (Z.pos M) (t - E)) in *.
  destruct (Z.eqb_spec m' 0) as [->|Hnz].
  { cbn [Zdigits2]. rewrite shr_nonpos by fexp_lia. reflexivity. }
  destruct m' as [|p|p] eqn:Em'; try lia. cbn [Zdigits2]. rewrite digits2_pos_log2.
  destruct (Z.ltb_spec (Z.pos p) (2 ^ prec)) as [Hlt|Hge].
  - assert (Z.log2 (Z.pos p) < prec) by (apply Z.log2_lt_pow2; lia).
    rewrite shr_nonpos by fexp_lia. cbn [shr_m]. reflexivity.
  - assert (Z.pos p = 2 ^ prec) as Heq by lia. rewrite Heq.
    rewrite Z.log2_pow2 by (unfold prec; lia).
    replace (fexp prec emax (prec + 1 + t) - t) with 1 by fexp_lia.
    cbn [shr SpecFloat.iter_pos]. rewrite shr_1_nonneg by lia. cbn [shr_m].
    replace (2 ^ prec / 2) with (2 ^ (prec - 1)) by reflexivity.
    reflexivity.
Qed.

Lemma rne_mono M1 M2 n : 0 <= n -> M1 <= M2 -> rne M1 n <= rne M2 n.
Proof.
  intros Hn HM. unfold rne.
  set (P := 2 ^ n). assert (HP : 0 < P) by (apply Z.pow_pos_nonneg; lia).
  pose proof (Z.div_le_mono M1 M2 P HP HM) as Hq.
  pose proof (Z.div_mod M1 P ltac:(lia)) as E1.
  pose proof (Z.div_mod M2 P ltac:(lia)) as E2.
  pose proof (Z.mod_pos_bound M1 P HP) as B1.
  pose proof (Z.mod_pos_bound M2 P HP) as B2.
  destruct (Z.eq_dec (M1 / P) (M2 / P)) as [Heq|Hne].
  - rewrite <- Heq in *.
    assert (M1 mod P <= M2 mod P) by lia.
    destruct (Z.compare_spec (2 * (M1 mod P)) P), (Z.compare_spec (2 * (M2 mod P)) P);
      try destruct (Z.even (M1 / P)); lia.
  - assert (M1 / P + 1 <= M2 / P) by lia.
    destruct (2 * (M1 mod P) ?= P), (2 * (M2 mod P) ?= P);
      try destruct (Z.even (M1 / P)); try destruct (Z.even (M2 / P)); lia.
Qed.

Lemma rne_shift M n k : 0 <= n -> 0 <= k -> rne (M * 2 ^ k) (n + k) = rne M n.
Proof.
  intros Hn Hk. unfold rne.
  assert (0 < 2 ^ k) by (apply Z.pow_pos_nonneg; lia).
  assert (0 < 2 ^ n) by (apply Z.pow_pos_nonneg; lia).
  rewrite Z.pow_add_r by lia.
  rewrite Z.div_mul_cancel_r by lia.
  rewrite Z.mul_mod_distr_r by lia.
  rewrite Z.mul_assoc, <- Zmult_compare_compat_r by lia. reflexivity.
Qed.

(** A number does not depend on how it is written. *)
Lemma round_fin_shift s M E k : 0 < M -> 0 <= k ->
  E <= fexp prec emax (Z.log2 M + 1 + E) ->
  round_fin s (M * 2 ^ k) (E - k) = round_fin s M E.
Proof.
  intros HM Hk HE. unfold round_fin.
  rewrite Z.log2_mul_pow2 by lia.
  replace (k + Z.log2 M + 1 + (E - k)) with (Z.log2 M + 1 + E) by lia.
  set (t := fexp prec emax (Z.log2 M + 1 + E)) in *.
  replace (t - (E - k)) with (t - E + k) by lia.
  rewrite rne_shift by lia. reflexivity.
Qed.

Lemma bounded_iff m e :
  bounded prec emax m e = true <->
  fexp prec emax (Z.log2 (Zpos m) + 1 + e) = e /\ e <= emax - prec.
Proof.
  unfold bounded, canonical_mantissa. rewrite andb_true_iff, Z.eqb_eq, Z.leb_le, digits2_pos_log2.
  reflexivity.
Qed.

Lemma round_fin_canonical s m e :
  bounded prec emax m e = true -> round_fin s (Zpos m) e = S754_finite s m e.
Proof.
  intros [Hc He]%bounded_iff. unfold round_fin. rewrite Hc, Z.sub_diag, rne_0.
  assert (Z.log2 (Z.pos m) < prec) by fexp_lia.
  assert (Z.pos m < 2 ^ prec) by (apply Z.log2_lt_pow2; lia).
  destruct (Z.eqb_spec (Z.pos m) 0); [lia|].
  destruct (Z.ltb_spec (Z.pos m) (2 ^ prec)); [|lia].
  destruct (Z.leb_spec e (emax - prec)); [|lia]. reflexivity.
Qed.

(** Multiplying by one changes nothing. *)
Lemma SFmul_one_r x : valid_binary x = true -> SFmul prec emax x SFone = x.
Proof.
  intros Hv. destruct x as [s|s| |s m e]; cbn [SFmul SFone]; rewrite ?xorb_false_r; try reflexivity.
  cbn [valid_binary] in Hv. pose proof Hv as [Hc He]%bounded_iff.
  rewrite Pos2Z.inj_mul. change (Z.pos 4503599627370496) with (2 ^ 52).
  rewrite binary_round_aux_spec.
  - replace (e + -52) with (e - 52) by lia.
    rewrite round_fin_shift by lia. now apply round_fin_canonical.
  - lia.
  - rewrite Z.log2_mul_pow2 by lia.
    replace (52 + Z.log2 (Z.pos m) + 1 + (e + -52)) with (Z.log2 (Z.pos m) + 1 + e) by lia. lia.
Qed.

Lemma SFleb_fin_pos m1 e1 m2 e2 :
  SFleb (S754_finite false m1 e1) (S754_finite false m2 e2) = true <->
  e1 < e2 \/ (e1 = e2 /\ (m1 <= m2)%positive).
Proof.
  unfold SFleb, SFcompare. change (Pos.compare_cont Eq m1 m2) with (m1 ?= m2)%positive.
  destruct (Z.compare_spec e1 e2); [destruct (Pos.compare_spec m1 m2)|..];
    split; intros; try discriminate; try reflexivity; lia.
Qed.

(** Rounding keeps the order. *)
Lemma round_fin_mono M1 M2 E :
  0 < M1 -> M1 <= M2 -> E <= fexp prec emax (Z.log2 M1 + 1 + E) ->
  SFleb (round_fin false M1 E) (round_fin false M2 E) = true.
Proof.
  intros H1 H12 HE. unfold round_fin.
  pose proof (Z.log2_le_mono M1 M2 H12) as Hlog.
  pose proof (Z.log2_spec M1 H1) as L1.
  pose proof (Z.log2_spec M2 ltac:(lia)) as L2.
  set (t1 := fexp prec emax (Z.log2 M1 + 1 + E)) in *.
  set (t2 := fexp prec emax (Z.log2 M2 + 1 + E)).
  assert (Ht : t1 <= t2) by (unfold t1, t2; fexp_lia).
  assert (B1 : 0 <= rne M1 (t1 - E) <= 2 ^ prec).
  { split.
    - pose proof (rne_bounds M1 (t1 - E)).
      assert (0 <= M1 / 2 ^ (t1 - E)) by (apply Z.div_pos; [lia|apply Z.pow_pos_nonneg; lia]). lia.
    - apply rne_lt_pow; [lia..|unfold prec; lia|].
      eapply Z.lt_le_trans; [apply L1|]. apply Z.pow_le_mono_r; [lia|]. unfold t1. fexp_lia. }
  assert (B2 : 0 <= rne M2 (t2 - E) <= 2 ^ prec).
  { split.
    - pose proof (rne_bounds M2 (t2 - E)).
      assert (0 <= M2 / 2 ^ (t2 - E)) by (apply Z.div_pos; [lia|apply Z.pow_pos_nonneg; lia]). lia.
    - apply rne_lt_pow; [lia..|unfold prec; lia|].
      eapply Z.lt_le_trans; [apply L2|]. apply Z.pow_le_mono_r; [lia|]. unfold t2. fexp_lia. }
  assert (Hcase : (t1 = t2 /\ rne M1 (t1 - E) <= rne M2 (t2 - E)) \/
                  (t1 < t2 /\ 2 ^ (prec - 1) <= rne M2 (t2 - E))).
  { destruct (Z.eq_dec t1 t2) as [Heq|Hne]; [left|right].
    - split; [assumption|]. rewrite <- Heq. apply rne_mono; lia.
    - split; [lia|].
      assert (Hn2 : t2 - E = Z.log2 M2 + 1 - prec) by (unfold t1, t2 in *; fexp_lia).
      eapply Z.le_trans; [|apply rne_bounds; lia].
      apply Z.div_le_lower_bound; [apply Z.pow_pos_nonneg; lia|].
      rewrite <- Z.pow_add_r by (unfold prec; lia).
      replace (t2 - E + (prec - 1)) with (Z.log2 M2) by lia. lia. }
  set (a := rne M1 (t1 - E)) in *. set (b := rne M2 (t2 - E)) in *.
  assert (0 < 2 ^ (prec - 1) < 2 ^ prec) by (split; reflexivity).
  destruct (Z.eqb_spec a 0), (Z.eqb_spec b 0), (Z.ltb_spec a (2 ^ prec)), (Z.ltb_spec b (2 ^ prec)),
    (Z.leb_spec t1 (emax - prec)), (Z.leb_spec t2 (emax - prec)),
    (Z.leb_spec (t1 + 1) (emax - prec)), (Z.leb_spec (t2 + 1) (emax - prec));
    try lia; try reflexivity; apply SFleb_fin_pos; lia.
Qed.

Lemma log2_bounds M : 0 < M -> 2 ^ Z.log2 M <= M < 2 ^ (Z.log2 M + 1).
Proof. intros HM. rewrite Z.add_1_r. now apply Z.log2_spec. Qed.

Lemma bounded_log2 m e : bounded prec emax m e = true ->
  emin <= e <= emax - prec /\ Z.log2 (Zpos m) + 1 <= prec /\
  (emin < e -> Z.log2 (Zpos m) + 1 = prec).
Proof. intros [Hc He]%bounded_iff. fexp_lia. Qed.

(** The order of two positive binary64 numbers is that of their values. *)
Lemma canonical_le m1 e1 m2 e2 :
  bounded prec emax m1 e1 = true -> bounded prec emax m2 e2 = true ->
  SFleb (S754_finite false m1 e1) (S754_finite false m2 e2) = true ->
  e1 <= e2 /\ Zpos m1 <= Zpos m2 * 2 ^ (e2 - e1).
Proof.
  intros (B1 & D1 & _)%bounded_log2 (B2 & D2 & N2)%bounded_log2 [Hlt|[-> Hle]]%SFleb_fin_pos.
  - split; [lia|].
    pose proof (log2_bounds (Z.pos m1) ltac:(lia)) as [_ L1].
    pose proof (log2_bounds (Z.pos m2) ltac:(lia)) as [L2 _].
    assert (Z.pos m1 < 2 ^ prec).
    { eapply Z.lt_le_trans; [apply L1|]. apply Z.pow_le_mono_r; lia. }
    assert (2 ^ (prec - 1) <= Z.pos m2).
    { replace (prec - 1) with (Z.log2 (Z.pos m2)) by lia. assumption. }
    assert (2 ^ 1 <= 2 ^ (e2 - e1)) by (apply Z.pow_le_mono_r; lia).
    change (2 ^ prec) with (2 ^ (prec - 1) * 2 ^ 1) in *. nia.
  - rewrite Z.sub_diag. split; lia.
Qed.

(** The exact product of two binary64 numbers is never shifted left. *)
Lemma mul_exponent_le ma ea mx ex :
  bounded prec emax ma ea = true -> bounded prec emax mx ex = true ->
  ea + ex <= fexp prec emax (Z.log2 (Zpos ma * Zpos mx) + 1 + (ea + ex)).
Proof.
  intros (B1 & D1 & N1)%bounded_log2 (B2 & D2 & N2)%bounded_log2.
  pose proof (Z.log2_mul_below (Zpos ma) (Zpos mx) ltac:(lia) ltac:(lia)).
  pose proof (Z.log2_nonneg (Zpos ma)). pose proof (Z.log2_nonneg (Zpos mx)).
  fexp_lia.
Qed.

Lemma SFmul_fin ma ea mx ex :
  bounded prec emax ma ea = true -> bounded prec emax mx ex = true ->
  forall sa sx, SFmul prec emax (S754_finite sa ma ea) (S754_finite sx mx ex) =
    round_fin (xorb sa sx) (Zpos ma * Zpos mx) (ea + ex).
Proof.
  intros Ha Hx sa sx. cbn [SFmul]. rewrite Pos2Z.inj_mul.
  apply binary_round_aux_spec; [lia|now apply mul_exponent_le].
Qed.

(** Multiplication by a positive number keeps the order. *)
Lemma SFmul_fin_mono ma ea mx ex my ey :
  bounded prec emax ma ea = true -> bounded prec emax mx ex = true ->
  bounded prec emax my ey = true ->
  SFleb (S754_finite false mx ex) (S754_finite false my ey) = true ->
  SFleb (SFmul prec emax (S754_finite false ma ea) (S754_finite false mx ex))
        (SFmul prec emax (S754_finite false ma ea) (S754_finite false my ey)) = true.
Proof.
  intros Ha Hx Hy Hle. rewrite !SFmul_fin by assumption. cbn [xorb].
  destruct (canonical_le _ _ _ _ Hx Hy Hle) as [He Hm].
  rewrite <- (round_fin_shift false (Z.pos ma * Z.pos my) (ea + ey) (ey - ex));
    [|lia|lia|now apply mul_exponent_le].
  replace (ea + ey - (ey - ex)) with (ea + ex) by lia.
  apply round_fin_mono; [lia| |now apply mul_exponent_le].
  rewrite <- Z.mul_assoc. apply Z.mul_le_mono_nonneg_l; lia.
Qed.

(** *** The order of binary64 numbers *)
Lemma SFcompare_swap x y : SFcompare y x = option_map CompOpp (SFcompare x y).
Proof.
  destruct x as [[]|[]| |[] m1 e1], y as [[]|[]| |[] m2 e2]; try reflexivity; cbn [SFcompare option_map];
    rewrite (Z.compare_antisym e1 e2); destruct (e1 ?= e2); cbn [CompOpp]; try reflexivity;
    rewrite (Pos.compare_cont_antisym m1 m2 Eq); cbn [CompOpp]; try reflexivity.
Qed.

Lemma SFleb_not_ltb x y : SFleb x y = true -> SFltb y x = false.
Proof.
  unfold SFleb, SFltb. rewrite (SFcompare_swap x y).
  destruct (SFcompare x y) as [[]|]; cbn; congruence.
Qed.

Lemma SFcompare_opp x y : SFcompare (SFopp x) (SFopp y) = SFcompare y x.
Proof.
  rewrite (SFcompare_swap x y).
  destruct x as [[]|[]| |[] m1 e1], y as [[]|[]| |[] m2 e2]; try reflexivity; cbn;
    destruct (e1 ?= e2); cbn [CompOpp]; try reflexivity.
  now rewrite CompOpp_involutive.
Qed.

Lemma binary_round_aux_sign s m e l : has_sign s (binary_round_aux prec emax s m e l).
Proof.
  unfold binary_round_aux. destruct (shr_fexp _ _ m e l) as [mrs e'].
  destruct (shr_fexp _ _ _ e' loc_Exact) as [mrs' e''].
  destruct (shr_m mrs'); [reflexivity| |exact I].
  destruct (_ <=? _); reflexivity.
Qed.

Lemma binary_round_aux_opp s m e l :
  SFopp (binary_round_aux prec emax s m e l) = binary_round_aux prec emax (negb s) m e l.
Proof.
  unfold binary_round_aux. destruct (shr_fexp _ _ m e l) as [mrs e'].
  destruct (shr_fexp _ _ _ e' loc_Exact) as [mrs' e''].
  destruct (shr_m mrs'); [reflexivity| |reflexivity].
  destruct (_ <=? _); reflexivity.
Qed.

Lemma SFmul_opp_l x y : SFmul prec emax (SFopp x) y = SFopp (SFmul prec emax x y).
Proof.
  destruct x as [sx|sx| |sx mx ex], y as [sy|sy| |sy my ey]; cbn [SFmul SFopp];
    rewrite <- ?negb_xorb_l; try reflexivity.
  now rewrite binary_round_aux_opp.
Qed.

Lemma round_fin_nonneg M E : SFnonneg (round_fin false M E) = true.
Proof.
  unfold round_fin. destruct (_ =? _); [reflexivity|].
  destruct (_ <? _); destruct (_ <=? _); reflexivity.
Qed.

Lemma nonneg_not_ltb_zero x s : SFnonneg x = true -> SFltb x (S754_zero s) = false.
Proof. destruct x as [[]|[]| |[] m e]; cbn; congruence. Qed.

Lemma SFltb_pinf_l x : SFltb (S754_infinity false) x = false.
Proof. destruct x as [[]|[]| |[] m e]; reflexivity. Qed.

(** The same with zeros and infinities: a product that is NaN
    compares with nothing. *)
Lemma SFmul_mono_nonneg a x y :
  valid_binary a = true -> valid_binary x = true -> valid_binary y = true ->
  SFnonneg a = true -> SFnonneg x = true -> SFleb x y = true ->
  SFltb (SFmul prec emax a y) (SFmul prec emax a x) = false.
Proof.
  intros Va Vx Vy Na Nx Hle.
  destruct a as [sa|[]| |[] ma ea]; try discriminate;
  destruct x as [sx|[]| |[] mx ex]; try discriminate;
  destruct y as [sy|[]| |[] my ey]; try discriminate; try reflexivity.
  - rewrite SFmul_fin by assumption. cbn [SFmul].
    apply nonneg_not_ltb_zero, round_fin_nonneg.
  - apply SFltb_pinf_l.
  - apply SFleb_not_ltb, SFmul_fin_mono; assumption.
Qed.

Lemma iter_xO m d : Zpos (Pos.iter xO m d) = Zpos m * 2 ^ Zpos d.
Proof.
  induction d as [|d IH] using Pos.peano_ind.
  - cbn. lia.
  - rewrite Pos.iter_succ, Pos2Z.inj_xO, IH, Pos2Z.inj_succ, Z.pow_succ_r by lia. lia.
Qed.

Lemma shl_align_spec m e e' :
  let r := shl_align m e e' in
  snd r = Z.min e e' /\ Zpos (fst r) = Zpos m * 2 ^ (e - snd r).
Proof.
  unfold shl_align. destruct (e' - e) as [|d|d] eqn:Hd; cbn [fst snd].
  - split; [lia|]. rewrite Z.sub_diag. lia.
  - split; [lia|]. rewrite Z.sub_diag. lia.
  - split; [lia|]. rewrite iter_xO. do 2 f_equal. lia.
Qed.

(** [binary_round] of an integer with an exponent in range is never zero. *)
Lemma binary_round_nonzero s m e : emin <= e ->
  match binary_round prec emax s m e with
  | S754_finite s' _ _ | S754_infinity s' => s' = s
  | _ => False
  end.
Proof.
  intros He. unfold binary_round.
  pose proof (shl_align_spec m e (fexp prec emax (Z.pos (digits2_pos m) + e))) as [H2 H1].
  destruct (shl_align _ _ _) as [mz ez]. cbn [fst snd] in *.
  rewrite digits2_pos_log2 in H2.
  assert (HL : Z.log2 (Z.pos mz) = Z.log2 (Z.pos m) + (e - ez)).
  { rewrite H1, Z.log2_mul_pow2 by lia. lia. }
  assert (Hfe : fexp prec emax (Z.log2 (Z.pos mz) + 1 + ez) = fexp prec emax (Z.log2 (Z.pos m) + 1 + e)).
  { f_equal. lia. }
  rewrite binary_round_aux_spec by (rewrite ?Hfe; lia).
  unfold round_fin. rewrite Hfe.
  set (t := fexp prec emax (Z.log2 (Z.pos m) + 1 + e)) in *.
  assert (Hq : 1 <= rne (Z.pos mz) (t - ez)).
  { eapply Z.le_trans; [|apply rne_bounds; lia].
    apply Z.div_le_lower_bound; [apply Z.pow_pos_nonneg; lia|].
    rewrite Z.mul_1_r.
    pose proof (log2_bounds (Z.pos mz) ltac:(lia)) as [L _].
    eapply Z.le_trans; [|apply L]. apply Z.pow_le_mono_r; [lia|].
    pose proof (Z.log2_nonneg (Z.pos m)). unfold t in *. fexp_lia. }
  destruct (Z.eqb_spec (rne (Z.pos mz) (t - ez)) 0); [lia|].
  destruct (_ <? _); destruct (_ <=? _); reflexivity.
Qed.

Lemma SFltb_fin_pos m1 e1 m2 e2 :
  SFltb (S754_finite false m1 e1) (S754_finite false m2 e2) = true <->
  e1 < e2 \/ (e1 = e2 /\ (m1 < m2)%positive).
Proof.
  unfold SFltb, SFcompare. change (Pos.compare_cont Eq m1 m2) with (m1 ?= m2)%positive.
  destruct (Z.compare_spec e1 e2); [destruct (Pos.compare_spec m1 m2)|..];
    split; intros; try discriminate; try reflexivity; lia.
Qed.

Lemma SFltb_fin_neg m1 e1 m2 e2 :
  SFltb (S754_finite true m1 e1) (S754_finite true m2 e2) =
  SFltb (S754_finite false m2 e2) (S754_finite false m1 e1).
Proof.
  pose proof (SFcompare_opp (S754_finite false m1 e1) (S754_finite false m2 e2)) as Hc.
  cbn [SFopp negb] in Hc. unfold SFltb. now rewrite Hc.
Qed.

Lemma canonical_lt m1 e1 m2 e2 :
  bounded prec emax m1 e1 = true -> bounded prec emax m2 e2 = true ->
  SFltb (S754_finite false m1 e1) (S754_finite false m2 e2) = true ->
  e1 <= e2 /\ Zpos m1 < Zpos m2 * 2 ^ (e2 - e1).
Proof.
  intros (B1 & D1 & _)%bounded_log2 (B2 & D2 & N2)%bounded_log2 [Hlt|[-> Hle]]%SFltb_fin_pos.
  - split; [lia|].
    pose proof (log2_bounds (Z.pos m1) ltac:(lia)) as [_ L1].
    pose proof (log2_bounds (Z.pos m2) ltac:(lia)) as [L2 _].
    assert (Z.pos m1 < 2 ^ prec).
    { eapply Z.lt_le_trans; [apply L1|]. apply Z.pow_le_mono_r; lia. }
    assert (2 ^ (prec - 1) <= Z.pos m2).
    { replace (prec - 1) with (Z.log2 (Z.pos m2)) by lia. assumption. }
    assert (2 ^ 1 <= 2 ^ (e2 - e1)) by (apply Z.pow_le_mono_r; lia).
    change (2 ^ prec) with (2 ^ (prec - 1) * 2 ^ 1) in *. nia.
  - rewrite Z.sub_diag. split; lia.
Qed.

(** The aligned mantissas of a subtraction compare as the operands do. *)
Lemma aligned_lt m1 e1 m2 e2 :
  bounded prec emax m1 e1 = true -> bounded prec emax m2 e2 = true ->
  SFltb (S754_finite false m1 e1) (S754_finite false m2 e2) = true ->
  Zpos (fst (shl_align m1 e1 (Z.min e1 e2))) < Zpos (fst (shl_align m2 e2 (Z.min e1 e2))) /\
  Zpos (fst (shl_align m1 e1 (Z.min e2 e1))) < Zpos (fst (shl_align m2 e2 (Z.min e2 e1))).
Proof.
  intros H1 H2 Hlt. destruct (canonical_lt _ _ _ _ H1 H2 Hlt) as [He Hm].
  rewrite (Z.min_comm e2 e1), Z.min_l by assumption.
  pose proof (shl_align_spec m1 e1 e1) as [S1 ->]. pose proof (shl_align_spec m2 e2 e1) as [S2 ->].
  rewrite S1, S2, Z.min_id, Z.min_r, Z.sub_diag by assumption.
  lia.
Qed.

Lemma SFltb_neg_zero x : 
  match x with S754_finite true _ _ | S754_infinity true => True | _ => False end ->
  SFltb x (S754_zero false) = true.
Proof. destruct x as [[]|[]| |[] m e]; cbn; tauto. Qed.

(** The difference of a number and a larger one is negative: it is
    never rounded to zero. *)
Lemma SFsub_lt x y :
  valid_binary x = true -> valid_binary y = true -> SFltb x y = true ->
  SFltb (SFsub prec emax x y) (S754_zero false) = true.
Proof.
  intros Vx Vy Hlt.
  destruct x as [[]|[]| |sx mx ex], y as [[]|[]| |sy my ey]; try discriminate; try reflexivity;
    try (destruct sx; try discriminate; reflexivity);
    try (destruct sy; try discriminate; reflexivity).
  cbn [valid_binary] in Vx, Vy. cbn [SFsub].
  pose proof (bounded_log2 _ _ Vx) as (Bx & _). pose proof (bounded_log2 _ _ Vy) as (By & _).
  set (X := Z.pos (fst (shl_align mx ex (Z.min ex ey)))).
  set (Y := Z.pos (fst (shl_align my ey (Z.min ex ey)))).
  assert (HD : cond_Zopp sx X - cond_Zopp sy Y < 0).
  { destruct sx, sy; cbn [cond_Zopp]; try discriminate.
    - rewrite SFltb_fin_neg in Hlt.
      destruct (aligned_lt _ _ _ _ Vy Vx Hlt) as [_ ?]. unfold X, Y. lia.
    - unfold X, Y. lia.
    - destruct (aligned_lt _ _ _ _ Vx Vy Hlt) as [? _]. unfold X, Y. lia. }
  destruct (cond_Zopp sx X - cond_Zopp sy Y) as [|p|p]; try lia.
  cbn [binary_normalize]. apply SFltb_neg_zero.
  pose proof (binary_round_nonzero true p (Z.min ex ey) ltac:(lia)).
  destruct (binary_round _ _ _ _ _) as [|[]| |[] ? ?]; try tauto; discriminate.
Qed.

(** The difference of two equal finite numbers is a zero. *)
Lemma SFsub_eq x y :
  SFeqb x y = true -> 
  match x with S754_zero _ | S754_finite _ _ _ => True | _ => False end ->
  exists s, SFsub prec emax x y = S754_zero s.
Proof.
  intros Heq Hfin.
  destruct x as [[]|[]| |sx mx ex], y as [[]|[]| |sy my ey]; try discriminate; try tauto;
    try (eexists; reflexivity); try (destruct sx; discriminate); try (destruct sy; discriminate).
  unfold SFeqb, SFcompare in Heq.
  assert (sx = sy /\ ex = ey /\ mx = my) as (-> & -> & ->).
  { destruct sx, sy; try discriminate; destruct (Z.compare_spec ex ey); try discriminate;
      change (Pos.compare_cont Eq mx my) with (mx ?= my)%positive in Heq;
      destruct (Pos.compare_spec mx my); try discriminate; auto. }
  exists false. cbn [SFsub]. rewrite Z.sub_diag. reflexivity.
Qed.

(** *** Numbers that are not negative *)

Lemma SFmul_not_neg a x :
  SFltb a (S754_zero false) = false -> SFltb x (S754_zero false) = false ->
  SFltb (SFmul prec emax a x) (S754_zero false) = false.
Proof.
  intros Ha Hx.
  destruct a as [sa|[]| |[] ma ea]; try discriminate;
  destruct x as [sx|[]| |[] mx ex]; try discriminate; try reflexivity.
  cbn [SFmul xorb].
  pose proof (binary_round_aux_sign false (Z.pos (ma * mx)) (ea + ex) loc_Exact) as Hs.
  destruct (binary_round_aux _ _ _ _ _ _) as [|[]| |[] ? ?]; cbn in Hs; try discriminate; reflexivity.
Qed.

Lemma SFdiv_not_neg a y :
  SFltb a (S754_zero false) = false -> SFltb (S754_zero false) y = true ->
  SFltb (SFdiv prec emax a y) (S754_zero false) = false.
Proof.
  intros Ha Hy.
  destruct a as [sa|[]| |[] ma ea]; try discriminate;
  destruct y as [sy|[]| |[] my ey]; try discriminate; try reflexivity.
  cbn [SFdiv xorb].
  destruct (SFdiv_core_binary _ _ _ _ _ _) as [[mz ez] lz].
  pose proof (binary_round_aux_sign false mz ez lz) as Hs.
  destruct (binary_round_aux _ _ _ _ _ _) as [|[]| |[] ? ?]; cbn in Hs; try discriminate; reflexivity.
Qed.

Lemma SFnonneg_iff x :
  SFnonneg x = true <-> x <> S754_nan /\ SFltb x (S754_zero false) = false.
Proof.
  destruct x as [[]|[]| |[] m e]; cbn; split; try intros [? ?]; try discriminate; try congruence; auto.
  all: split; [discriminate|reflexivity].
Qed.

Lemma SFltb_false_leb x y :
  x <> S754_nan -> y <> S754_nan -> SFltb x y = false -> SFleb y x = true.
Proof.
  intros Hx Hy. unfold SFltb, SFleb. rewrite (SFcompare_swap x y).
  destruct x as [[]|[]| |[] m1 e1], y as [[]|[]| |[] m2 e2]; try congruence; cbn; try discriminate;
    try reflexivity; destruct (e1 ?= e2); cbn; try discriminate; try reflexivity;
    destruct (Pos.compare_cont Eq m1 m2); cbn; try discriminate; reflexivity.
Qed.

Lemma SFleb_ninf x : x <> S754_nan -> SFleb (S754_infinity true) x = true.
Proof. destruct x as [[]|[]| |[] m e]; try reflexivity. congruence. Qed.

Lemma SFopp_nonneg x : SFnonneg x = true -> SFleb (SFopp x) (S754_zero false) = true.
Proof. destruct x as [[]|[]| |[] m e]; cbn; congruence. Qed.

Lemma SFleb_nonneg_trans x y : SFnonneg x = true -> SFleb x y = true -> SFnonneg y = true.
Proof.
  destruct x as [[]|[]| |[] m1 e1], y as [[]|[]| |[] m2 e2]; cbn; congruence.
Qed.

Lemma SFcompare_refl x : x <> S754_nan -> SFcompare x x = Some Eq.
Proof.
  intros Hx. destruct x as [[]|[]| |[] m e]; try reflexivity; try congruence; cbn;
    rewrite Z.compare_refl, Pos.compare_cont_refl; reflexivity.
Qed.
End Binary64.

(** ** Rounding errors, in units of the least double

    Every finite double is a whole number of units of 2^-1074, so the
    error of a rounded quotient or product can be stated on integers. *)

Section Units.
Local Open Scope Z_scope.

Lemma shr_m_iter n mrs : 0 <= shr_m mrs ->
  shr_m (Nat.iter n shr_1 mrs) = shr_m mrs / 2 ^ Z.of_nat n.
Proof.
  intros Hm. induction n as [|n IH].
  - cbn. by rewrite Z.div_1_r.
  - rewrite Nat.iter_succ.
    assert (Hq : 0 <= shr_m (Nat.iter n shr_1 mrs)).
    { rewrite IH. apply Z.div_pos; [done|]. apply Z.pow_pos_nonneg; lia. }
    destruct (Nat.iter n shr_1 mrs) as [m r s] eqn:E. cbn [shr_m] in *.
    rewrite shr_1_nonneg by done. cbn [shr_m]. rewrite IH.
    rewrite Z.div_div by lia. f_equal.
    rewrite (Nat2Z.inj_succ n), Z.pow_succ_r by lia. lia.
Qed.

Lemma shr_m_shr m l e n : 0 <= m -> 0 <= n ->
  shr_m (shr (shr_record_of_loc m l) e n).1 = m / 2 ^ n ∧
  (shr (shr_record_of_loc m l) e n).2 = e + n.
Proof.
  intros Hm Hn.
  assert (Hr : shr_m (shr_record_of_loc m l) = m) by (by destruct l as [|[]]).
  destruct n as [|p|p]; [| |lia]; cbn [shr fst snd].
  - rewrite Hr, Z.div_1_r. split; [done|lia].
  - split; [|done]. rewrite iter_pos_nat, shr_m_iter by (by rewrite Hr).
    rewrite Hr. f_equal. f_equal. lia.
Qed.

Lemma round_nearest_even_bounds m l :
  m <= round_nearest_even m l <= m + 1.
Proof. destruct l as [|[]]; cbn; try destruct (Z.even m); lia. Qed.

Lemma Zdigits2_log2 m : 0 < m -> Zdigits2 m = Z.log2 m + 1.
Proof. destruct m; try lia. intros _. cbn [Zdigits2]. apply digits2_pos_log2. Qed.

Lemma round_fin_carry s M E :
  round_fin s M E =
  round_carry s (rne M (fexp prec emax (Z.log2 M + 1 + E) - E)) (fexp prec emax (Z.log2 M + 1 + E)).
Proof. reflexivity. Qed.

(** The rounding of [SpecFloat] at any location: the mantissa is cut
    to the exponent [fexp] and at most one is added to it. *)
Lemma binary_round_aux_any s m e l :
  0 <= m -> e <= fexp prec emax (Zdigits2 m + e) ->
  let t := fexp prec emax (Zdigits2 m + e) in
  exists mR, m / 2 ^ (t - e) <= mR <= m / 2 ^ (t - e) + 1 /\
    mR <= 2 ^ prec /\
    binary_round_aux prec emax s m e l = round_carry s mR t.
Proof.
  intros Hm He t. unfold binary_round_aux, shr_fexp. fold t.
  destruct (shr_m_shr m l e (t - e)) as [Hs He']; [lia..|].
  destruct (shr _ e (t - e)) as [mrs e']. cbn [fst snd] in Hs, He'.
  replace e' with t by lia. clear He' e'.
  pose proof (round_nearest_even_bounds (shr_m mrs) (loc_of_shr_record mrs)) as Hb.
  remember (round_nearest_even (shr_m mrs) (loc_of_shr_record mrs)) as mR eqn:EmR. clear EmR. rewrite Hs in Hb. clear Hs mrs.
  assert (Hq : 0 <= m / 2 ^ (t - e) < 2 ^ prec).
  { split; [apply Z.div_pos; [lia|apply Z.pow_pos_nonneg; lia]|].
    apply Z.div_lt_upper_bound; [apply Z.pow_pos_nonneg; lia|].
    rewrite <- Z.pow_add_r by (unfold prec; lia).
    destruct (Z.eq_dec m 0) as [->|]; [apply Z.pow_pos_nonneg; unfold prec; lia|].
    pose proof (log2_bounds m ltac:(lia)).
    eapply Z.lt_le_trans; [apply H|]. apply Z.pow_le_mono_r; [lia|]. unfold t. rewrite Zdigits2_log2 by lia. fexp_lia. }
  assert (Ht : emin <= t) by (unfold t; fexp_lia).
  exists mR. split; [done|]. split; [lia|]. unfold round_carry.
  destruct (Z.eqb_spec mR 0) as [->|Hnz].
  { cbn [Zdigits2]. rewrite shr_nonpos by fexp_lia. reflexivity. }
  destruct mR as [|p|p] eqn:Em'; try lia. cbn [Zdigits2]. rewrite digits2_pos_log2.
  destruct (Z.ltb_spec (Z.pos p) (2 ^ prec)) as [Hlt|Hge].
  - assert (Z.log2 (Z.pos p) < prec) by (apply Z.log2_lt_pow2; lia).
    rewrite shr_nonpos by fexp_lia. cbn [shr_m shr_record_of_loc]. reflexivity.
  - assert (Z.pos p = 2 ^ prec) as Heq by lia. rewrite Heq.
    rewrite Z.log2_pow2 by (unfold prec; lia).
    replace (fexp prec emax (prec + 1 + t) - t) with 1 by fexp_lia.
    cbn [shr SpecFloat.iter_pos shr_record_of_loc]. rewrite shr_1_nonneg by lia. cbn [shr_m].
    replace (2 ^ prec / 2) with (2 ^ (prec - 1)) by reflexivity.
    reflexivity.
Qed.

Lemma cut_bounds M k mR : 0 <= M -> 0 <= k ->
  M / 2 ^ k <= mR <= M / 2 ^ k + 1 ->
  (mR - 1) * 2 ^ k <= M /\ M + 1 <= (mR + 1) * 2 ^ k.
Proof.
  intros HM Hk Hb. assert (HP : 0 < 2 ^ k) by (apply Z.pow_pos_nonneg; lia).
  pose proof (Z.div_mod M (2 ^ k) ltac:(lia)).
  pose proof (Z.mod_pos_bound M (2 ^ k) HP). nia.
Qed.

Lemma cut_normal M E : 0 <= M ->
  let t := fexp prec emax (Zdigits2 M + E) in
  E <= t -> t = emin \/ 2 ^ (prec - 1) <= M / 2 ^ (t - E).
Proof.
  intros HM t HE. destruct (Z.eq_dec M 0) as [->|Hnz].
  { left. unfold t in *. cbn [Zdigits2] in *. fexp_lia. }
  destruct (Z.eq_dec t emin) as [|Hne]; [by left|right].
  unfold t in *. rewrite Zdigits2_log2 in * by lia.
  assert (Hk : fexp prec emax (Z.log2 M + 1 + E) - E = Z.log2 M + 1 - prec) by fexp_lia.
  rewrite Hk. apply Z.div_le_lower_bound; [apply Z.pow_pos_nonneg; lia|].
  rewrite <- Z.pow_add_r by (unfold prec in *; lia).
  replace (Z.log2 M + 1 - prec + (prec - 1)) with (Z.log2 M) by lia.
  apply log2_bounds. lia.
Qed.

(** The units of a rounded number: a mantissa [m] at the exponent [t]. *)
Lemma round_carry_units s m t : 0 <= m <= 2 ^ prec -> emin <= t ->
  (round_carry s m t = S754_infinity s /\
   (emax - prec < t \/ (m = 2 ^ prec /\ emax - prec <= t))) \/
  (SFfinite (round_carry s m t) /\
   SFunits (round_carry s m t) = cond_Zopp s (m * 2 ^ (t - emin))).
Proof.
  intros Hm Ht. unfold round_carry.
  destruct (Z.eqb_spec m 0) as [->|Hnz]; [right; split; [done|by destruct s]|].
  destruct (Z.ltb_spec m (2 ^ prec)).
  - destruct (Z.leb_spec t (emax - prec)); [right|left; split; [done|by left]].
    split; [done|]. cbn [SFunits]. by rewrite Z2Pos.id by lia.
  - destruct (Z.leb_spec (t + 1) (emax - prec)); [right|left; split; [done|right; lia]].
    split; [done|]. cbn [SFunits]. assert (m = 2 ^ prec) as -> by lia.
    f_equal. replace (t + 1 - emin) with (1 + (t - emin)) by lia.
    rewrite Z.pow_add_r by lia.
    change (Z.pos (Z.to_pos (2 ^ (prec - 1)))) with (2 ^ (prec - 1)).
    change (2 ^ prec) with (2 ^ (prec - 1) * 2 ^ 1). ring.
Qed.

(** The quotient of two positive binary64 numbers, in units: the
    result is within one unit [u] of its last place of the quotient,
    and has 53 significant bits unless its exponent is the least. *)
Lemma SFdiv_units ma ea mb eb :
  bounded prec emax ma ea = true -> bounded prec emax mb eb = true ->
  let a := S754_finite false ma ea in
  let b := S754_finite false mb eb in
  let r := SFdiv prec emax a b in
  r = S754_infinity false \/
  (SFfinite r /\ 0 <= SFunits r /\ exists u, 1 <= u /\
     (SFunits r - u) * SFunits b <= SFunits a * 2 ^ (- emin) <= (SFunits r + u) * SFunits b /\
     (u = 1 \/ 2 ^ (prec - 1) * u <= SFunits r)).
Proof.
  intros [Ha _]%bounded_log2 [Hb _]%bounded_log2 a b r.
  unfold r, a, b, SFdiv, SFdiv_core_binary. cbn [xorb Zdigits2].
  rewrite !digits2_pos_log2.
  set (da := Z.log2 (Z.pos ma) + 1). set (db := Z.log2 (Z.pos mb) + 1).
  set (e' := Z.min (fexp prec emax (da + ea - (db + eb))) (ea - eb)).
  set (s := ea - eb - e').
  assert (Hs : 0 <= s) by (unfold s, e'; lia).
  assert (Hm' : match s with Z.pos _ => Z.shiftl (Z.pos ma) s | 0 => Z.pos ma | Z.neg _ => 0 end
                = Z.pos ma * 2 ^ s).
  { destruct s; [cbn; lia|by rewrite Z.shiftl_mul_pow2 by lia|lia]. }
  rewrite Hm'. clear Hm'.
  pose proof (Z_div_mod (Z.pos ma * 2 ^ s) (Z.pos mb) ltac:(lia)) as Hdiv.
  destruct (Z.div_eucl _ _) as [q rem]. destruct Hdiv as [Hq Hrem].
  assert (HP : 0 < 2 ^ s) by (apply Z.pow_pos_nonneg; lia).
  assert (Hq0 : 0 <= q).
  { assert (0 < Z.pos ma * 2 ^ s) by (apply Z.mul_pos_pos; lia).
    destruct (Z.le_gt_cases 0 q); [done|]. assert (Z.pos mb * q <= Z.pos mb * -1) by (apply Z.mul_le_mono_nonneg_l; lia). lia. }
  pose proof (log2_bounds (Z.pos ma) ltac:(lia)) as La.
  pose proof (log2_bounds (Z.pos mb) ltac:(lia)) as Lb.
  fold da in La. fold db in Lb.
  assert (1 <= da /\ 1 <= db) as [Hda Hdb].
  { pose proof (Z.log2_nonneg (Z.pos ma)). pose proof (Z.log2_nonneg (Z.pos mb)). unfold da, db. lia. }
  assert (He' : e' <= fexp prec emax (Zdigits2 q + e')).
  { destruct (Z.le_gt_cases (da - db + s) 0) as [Hsmall|Hbig].
    - assert (e' <= emin) by (unfold s, e' in *; fexp_lia). fexp_lia.
    - assert (2 ^ (da - 1 - db + s) <= q).
      { apply Z.lt_succ_r. unfold Z.succ.
        assert (2 ^ (da - 1 - db + s) * 2 ^ db <= Z.pos ma * 2 ^ s).
        { rewrite <- Z.pow_add_r by lia.
          replace (da - 1 - db + s + db) with ((da - 1) + s) by lia.
          rewrite Z.pow_add_r by lia. replace (da - 1) with (Z.log2 (Z.pos ma)) by (unfold da; lia).
          nia. }
        assert (0 < 2 ^ (da - 1 - db + s)) by (apply Z.pow_pos_nonneg; lia).
        nia. }
      assert (0 < q) by (assert (0 < 2 ^ (da - 1 - db + s)) by (apply Z.pow_pos_nonneg; lia); lia).
      rewrite Zdigits2_log2 by done.
      assert (da - 1 - db + s <= Z.log2 q) by (apply Z.log2_le_pow2; [done|lia]).
      unfold s, e' in *. fexp_lia. }
  destruct (binary_round_aux_any false q e' (new_location (Z.pos mb) rem) Hq0 He')
    as (mR & Hcut & Hle & ->).
  pose proof (cut_normal q e' Hq0 He') as Hnorm.
  set (t := fexp prec emax (Zdigits2 q + e')) in *.
  assert (Ht : emin <= t) by (unfold t; fexp_lia).
  assert (HmR : 0 <= mR).
  { assert (0 <= q / 2 ^ (t - e')) by (apply Z.div_pos; [lia|apply Z.pow_pos_nonneg; lia]). lia. }
  destruct (round_carry_units false mR t) as [[-> _]|[Hfin Hu]]; [lia|done|by left|right].
  assert (HU : 0 < 2 ^ (t - emin)) by (apply Z.pow_pos_nonneg; lia).
  split; [done|]. rewrite Hu. cbn [cond_Zopp SFunits].
  split; [apply Z.mul_nonneg_nonneg; lia|]. exists (2 ^ (t - emin)).
  split; [lia|].
  destruct (cut_bounds q (t - e') mR Hq0 ltac:(lia) Hcut) as [Hlo Hhi].
  set (X := e' + eb - 2 * emin).
  assert (HX : 0 <= X) by (unfold X, e' in *; fexp_lia).
  assert (HPX : 0 < 2 ^ X) by (apply Z.pow_pos_nonneg; lia).
  assert (HPk : 0 < 2 ^ (t - e')) by (apply Z.pow_pos_nonneg; lia).
  split.
  - replace (mR * 2 ^ (t - emin) - 2 ^ (t - emin)) with ((mR - 1) * 2 ^ (t - emin)) by lia.
    replace (mR * 2 ^ (t - emin) + 2 ^ (t - emin)) with ((mR + 1) * 2 ^ (t - emin)) by lia.
    replace (Z.pos ma * 2 ^ (ea - emin) * 2 ^ (- emin)) with (Z.pos ma * 2 ^ s * 2 ^ X).
    2:{ rewrite <- !Z.mul_assoc, <- !Z.pow_add_r by fexp_lia.
        do 2 f_equal. unfold X, s. lia. }
    assert (Hsc : forall z, z * 2 ^ (t - emin) * (Z.pos mb * 2 ^ (eb - emin)) =
                       z * 2 ^ (t - e') * Z.pos mb * 2 ^ X).
    { intros z.
      assert (Hp : 2 ^ (t - emin) * 2 ^ (eb - emin) = 2 ^ (t - e') * 2 ^ X).
      { rewrite <- !Z.pow_add_r by fexp_lia. f_equal. unfold X. lia. }
      transitivity (z * Z.pos mb * (2 ^ (t - emin) * 2 ^ (eb - emin))); [ring|].
      rewrite Hp. ring. }
    rewrite !Hsc. clear Hsc.
    assert ((mR - 1) * 2 ^ (t - e') * Z.pos mb <= Z.pos ma * 2 ^ s <=
            (mR + 1) * 2 ^ (t - e') * Z.pos mb) as [H1 H2].
    { rewrite Hq. split.
      - transitivity (q * Z.pos mb); [apply Z.mul_le_mono_nonneg_r; lia|lia].
      - transitivity ((q + 1) * Z.pos mb); [lia|apply Z.mul_le_mono_nonneg_r; lia]. }
    split; apply Z.mul_le_mono_nonneg_r; lia.
  - destruct Hnorm as [->|Hn]; [left; by rewrite Z.sub_diag|right].
    apply Z.mul_le_mono_nonneg_r; lia.
Qed.

Lemma cond_Zopp_abs_sub s a b : Z.abs (cond_Zopp s a - cond_Zopp s b) = Z.abs (a - b).
Proof. destruct s; cbn; lia. Qed.

(** The product of two binary64 numbers, in units: the result is
    within one unit [u] of its last place of the product; it is
    infinite only when the product is at least [2^1024 - 2^972]. *)
Lemma SFmul_units sx mx ex sy my ey :
  bounded prec emax mx ex = true -> bounded prec emax my ey = true ->
  let x := S754_finite sx mx ex in
  let y := S754_finite sy my ey in
  let r := SFmul prec emax x y in
  (r = S754_infinity (xorb sx sy) /\
   (2 ^ (prec - 1) - 1) * 2 ^ (emax - prec + 1 - emin) * 2 ^ (- emin)
     <= Z.abs (SFunits x * SFunits y)) \/
  (SFfinite r /\ exists u, 1 <= u /\
     Z.abs (SFunits r * 2 ^ (- emin) - SFunits x * SFunits y) <= u * 2 ^ (- emin) /\
     (u = 1 \/ 2 ^ (prec - 1) * u <= Z.abs (SFunits r))).
Proof.
  intros Hx Hy x y r. unfold r, x, y. rewrite SFmul_fin, round_fin_carry by done.
  pose proof (mul_exponent_le mx ex my ey Hx Hy) as HE.
  apply bounded_log2 in Hx as [Hx _], Hy as [Hy _].
  set (M := Z.pos mx * Z.pos my) in *. set (E := ex + ey) in *.
  assert (HM : 0 < M) by (unfold M; lia).
  rewrite <- (Zdigits2_log2 M HM) in *.
  pose proof (cut_normal M E ltac:(lia) HE) as Hnorm.
  set (t := fexp prec emax (Zdigits2 M + E)) in *.
  assert (Ht : emin <= t) by (unfold t; fexp_lia).
  pose proof (rne_bounds M (t - E) ltac:(lia) ltac:(lia)) as Hcut.
  assert (Hle : rne M (t - E) <= 2 ^ prec).
  { apply rne_lt_pow; [lia..|unfold prec; lia|].
    pose proof (log2_bounds M HM).
    eapply Z.lt_le_trans; [apply H|]. apply Z.pow_le_mono_r; [lia|].
    unfold t. rewrite Zdigits2_log2 by done. fexp_lia. }
  set (mR := rne M (t - E)) in *.
  destruct (cut_bounds M (t - E) mR ltac:(lia) ltac:(lia) Hcut) as [Hlo Hhi].
  assert (HPk : 0 < 2 ^ (t - E)) by (apply Z.pow_pos_nonneg; lia).
  assert (HmR : 0 <= mR).
  { assert (0 <= M / 2 ^ (t - E)) by (apply Z.div_pos; lia). lia. }
  set (X := E - 2 * emin).
  assert (HX : 0 <= X) by (unfold X, E; fexp_lia).
  assert (HPX : 0 < 2 ^ X) by (apply Z.pow_pos_nonneg; lia).
  assert (Hprod : SFunits (S754_finite sx mx ex) * SFunits (S754_finite sy my ey) =
                  cond_Zopp (xorb sx sy) (M * 2 ^ X)).
  { cbn [SFunits].
    assert (Z.pos mx * 2 ^ (ex - emin) * (Z.pos my * 2 ^ (ey - emin)) = M * 2 ^ X) as <-.
    { unfold M, X, E. replace (ex + ey - 2 * emin) with ((ex - emin) + (ey - emin)) by lia.
      rewrite Z.pow_add_r by lia. ring. }
    destruct sx, sy; cbn; lia. }
  assert (Hsc : forall z, z * 2 ^ (t - emin) * 2 ^ (- emin) = z * 2 ^ (t - E) * 2 ^ X).
  { intros z. rewrite <- !Z.mul_assoc, <- !Z.pow_add_r by fexp_lia.
    do 2 f_equal. unfold X. lia. }
  rewrite Hprod.
  destruct (round_carry_units (xorb sx sy) mR t) as [[-> Hov]|[Hfin Hu]]; [lia|done|left|right].
  - split; [done|].
    assert (Z.abs (cond_Zopp (xorb sx sy) (M * 2 ^ X)) = M * 2 ^ X) as ->
      by (destruct (xorb sx sy); cbn; lia).
    assert (Hn : 2 ^ (prec - 1) <= mR).
    { destruct Hnorm as [Hn|Hn]; [|lia]. exfalso. unfold emin, prec, emax in *. lia. }
    transitivity ((mR - 1) * 2 ^ (t - E) * 2 ^ X); [|apply Z.mul_le_mono_nonneg_r; lia].
    rewrite <- Hsc. apply Z.mul_le_mono_nonneg_r; [apply Z.pow_nonneg; lia|].
    destruct Hov as [Hov|[-> Hov]].
    + apply Z.mul_le_mono_nonneg; [unfold prec; lia|lia|apply Z.pow_nonneg; lia|].
      apply Z.pow_le_mono_r; lia.
    + replace (t - emin) with ((t + 1 - emin) - 1) by lia.
      assert (0 < 2 ^ (t - emin)) by (apply Z.pow_pos_nonneg; lia).
      assert (2 ^ (emax - prec + 1 - emin) <= 2 * 2 ^ (t + 1 - emin - 1)).
      { rewrite <- Z.pow_succ_r by lia. apply Z.pow_le_mono_r; lia. }
      assert (0 < 2 ^ (emax - prec + 1 - emin)) by (apply Z.pow_pos_nonneg; unfold emin, prec, emax; lia).
      change (2 ^ prec) with (2 * 2 ^ (prec - 1)).
      assert (1 <= 2 ^ (prec - 1)) by (unfold prec; lia). nia.
  - split; [done|]. exists (2 ^ (t - emin)).
    assert (HU : 0 < 2 ^ (t - emin)) by (apply Z.pow_pos_nonneg; lia).
    split; [lia|]. rewrite Hu. split.
    + replace (cond_Zopp (xorb sx sy) (mR * 2 ^ (t - emin)) * 2 ^ (- emin))
        with (cond_Zopp (xorb sx sy) (mR * 2 ^ (t - emin) * 2 ^ (- emin)))
        by (destruct (xorb sx sy); cbn; lia).
      rewrite cond_Zopp_abs_sub, Hsc.
      replace (2 ^ (t - emin) * 2 ^ (- emin)) with (1 * 2 ^ (t - emin) * 2 ^ (- emin)) by lia.
      rewrite Hsc.
      assert (Z.abs (mR * 2 ^ (t - E) - M) <= 1 * 2 ^ (t - E)) by lia.
      replace (mR * 2 ^ (t - E) * 2 ^ X - M * 2 ^ X) with ((mR * 2 ^ (t - E) - M) * 2 ^ X) by ring.
      rewrite Z.abs_mul, (Z.abs_eq (2 ^ X)) by lia.
      apply Z.mul_le_mono_nonneg_r; lia.
    + assert (Z.abs (cond_Zopp (xorb sx sy) (mR * 2 ^ (t - emin))) = mR * 2 ^ (t - emin)) as ->
        by (destruct (xorb sx sy); cbn; lia).
      destruct Hnorm as [->|Hn]; [left; by rewrite Z.sub_diag|right].
      apply Z.mul_le_mono_nonneg_r; lia.
Qed.

(** *** The order of finite numbers is the order of their units *)

Lemma canonical_compare m1 e1 m2 e2 :
  bounded prec emax m1 e1 = true -> bounded prec emax m2 e2 = true ->
  (Z.pos m1 * 2 ^ (e1 - emin) ?= Z.pos m2 * 2 ^ (e2 - emin)) =
  match e1 ?= e2 with
  | Lt => Lt
  | Gt => Gt
  | Eq => Pos.compare_cont Eq m1 m2
  end.
Proof.
  intros (B1 & D1 & N1)%bounded_log2 (B2 & D2 & N2)%bounded_log2.
  pose proof (log2_bounds (Z.pos m1) ltac:(lia)) as L1.
  pose proof (log2_bounds (Z.pos m2) ltac:(lia)) as L2.
  assert (forall ma ea mb eb, emin <= ea -> ea < eb ->
            Z.pos ma < 2 ^ prec -> 2 ^ (prec - 1) <= Z.pos mb ->
            Z.pos ma * 2 ^ (ea - emin) < Z.pos mb * 2 ^ (eb - emin)) as Hlt.
  { intros ma ea mb eb Ha Hab Hma Hmb.
    replace (eb - emin) with ((eb - ea - 1) + 1 + (ea - emin)) by lia.
    rewrite !Z.pow_add_r by lia.
    assert (0 < 2 ^ (ea - emin)) by (apply Z.pow_pos_nonneg; lia).
    assert (0 < 2 ^ (eb - ea - 1)) by (apply Z.pow_pos_nonneg; lia).
    rewrite !Z.mul_assoc. apply Z.mul_lt_mono_pos_r; [done|].
    change (2 ^ prec) with (2 ^ (prec - 1) * 2) in Hma. change (2 ^ 1) with 2.
    assert (Z.pos mb * 1 <= Z.pos mb * 2 ^ (eb - ea - 1)) by (apply Z.mul_le_mono_nonneg_l; lia).
    lia. }
  assert (forall m, Z.log2 (Z.pos m) + 1 <= prec -> Z.pos m < 2 ^ prec) as Hup.
  { intros m Hm. pose proof (log2_bounds (Z.pos m) ltac:(lia)).
    eapply Z.lt_le_trans; [apply H|]. apply Z.pow_le_mono_r; lia. }
  assert (forall m, Z.log2 (Z.pos m) + 1 = prec -> 2 ^ (prec - 1) <= Z.pos m) as Hdn.
  { intros m Hm. pose proof (log2_bounds (Z.pos m) ltac:(lia)).
    replace (prec - 1) with (Z.log2 (Z.pos m)) by lia. lia. }
  destruct (Z.compare_spec e1 e2) as [->|H12|H21].
  - rewrite Pos.compare_cont_spec. cbn [Pos.switch_Eq].
    assert (0 < 2 ^ (e2 - emin)) by (apply Z.pow_pos_nonneg; lia).
    rewrite <- Zmult_compare_compat_r by lia. cbn [Z.compare].
    by destruct (m1 ?= m2)%positive.
  - apply Z.compare_lt_iff. apply Hlt; [lia|done|by apply Hup|apply Hdn, N2; lia].
  - apply Z.compare_gt_iff. apply Hlt; [lia|done|by apply Hup|apply Hdn, N1; lia].
Qed.

(** On finite numbers the order of binary64 is the order of their
    units. *)
Lemma SFcompare_units x y :
  valid_binary x = true -> valid_binary y = true -> SFfinite x -> SFfinite y ->
  SFcompare x y = Some (SFunits x ?= SFunits y).
Proof.
  intros Vx Vy Fx Fy.
  assert (forall m e, bounded prec emax m e = true -> 0 < Z.pos m * 2 ^ (e - emin)) as Hpos.
  { intros m e [B _]%bounded_log2. apply Z.mul_pos_pos; [lia|apply Z.pow_pos_nonneg; lia]. }
  destruct x as [sx|sx| |sx mx ex], y as [sy|sy| |sy my ey]; try done;
    cbn [SFcompare SFunits valid_binary] in *.
  - destruct sy; cbn [cond_Zopp]; f_equal; symmetry;
      [apply Z.compare_gt_iff|apply Z.compare_lt_iff]; specialize (Hpos _ _ Vy); lia.
  - destruct sx; cbn [cond_Zopp]; f_equal; symmetry;
      [apply Z.compare_lt_iff|apply Z.compare_gt_iff]; specialize (Hpos _ _ Vx); lia.
  - pose proof (Hpos _ _ Vx). pose proof (Hpos _ _ Vy).
    pose proof (canonical_compare mx ex my ey Vx Vy) as Hc.
    destruct sx, sy; cbn [cond_Zopp]; f_equal.
    + rewrite Z.compare_opp, (Z.compare_antisym (Z.pos mx * _)), Hc.
      by destruct (ex ?= ey).
    + symmetry. apply Z.compare_lt_iff. lia.
    + symmetry. apply Z.compare_gt_iff. lia.
    + rewrite Hc. by destruct (ex ?= ey).
Qed.

Lemma SFleb_units x y :
  valid_binary x = true -> valid_binary y = true -> SFfinite x -> SFfinite y ->
  SFleb x y = true <-> SFunits x <= SFunits y.
Proof.
  intros Vx Vy Fx Fy. unfold SFleb. rewrite SFcompare_units by done.
  unfold Z.le. destruct (_ ?= _); split; congruence.
Qed.

Lemma SFltb_units x y :
  valid_binary x = true -> valid_binary y = true -> SFfinite x -> SFfinite y ->
  SFltb x y = true <-> SFunits x < SFunits y.
Proof.
  intros Vx Vy Fx Fy. unfold SFltb. rewrite SFcompare_units by done.
  unfold Z.lt. destruct (_ ?= _); split; congruence.
Qed.
End Units.

(** ** From [SpecFloat] to the primitive doubles *)

Section Doubles.
Local Open Scope float_scope.

Lemma Prim2SF_nan_inv x : Prim2SF x = S754_nan → x = nan.
Proof. intros Hx. apply Prim2SF_inj. by rewrite Hx. Qed.

Lemma Prim2SF_zero_inv x s : Prim2SF x = S754_zero s → x = 0 ∨ x = -0.
Proof. intros Hx. destruct s; [right|left]; apply Prim2SF_inj; by rewrite Hx. Qed.

Lemma mul_1_r x : x * 1 = x.
Proof.
  apply Prim2SF_inj. rewrite mul_spec.
  change (Prim2SF 1) with SFone. apply SFmul_one_r, Prim2SF_valid.
Qed.

Lemma is_finite_SF x : is_finite x = true → SFfinite (Prim2SF x).
Proof.
  unfold is_finite, is_nan, is_infinity. rewrite !FloatAxioms.eqb_spec, abs_spec.
  change (Prim2SF infinity) with (S754_infinity false).
  destruct (Prim2SF x) as [[]|[]| |[] m e]; cbn; try tauto; discriminate.
Qed.

Lemma eqb_refl_finite x : is_finite x = true → (x =? x) = true.
Proof.
  intros Hx%is_finite_SF. rewrite FloatAxioms.eqb_spec. unfold SFeqb.
  rewrite SFcompare_refl; [done|]. by destruct (Prim2SF x).
Qed.

Lemma max_0_zero dt s : Prim2SF dt = S754_zero s → max_0 dt = dt.
Proof. intros Hz. unfold max_0. rewrite ltb_spec, Hz. by destruct s. Qed.

Lemma max_0_not_neg dt : (max_0 dt <? 0) = false.
Proof. unfold max_0. destruct (dt <? 0) eqn:Hd; [reflexivity|exact Hd]. Qed.

Lemma sub_eq_zero x y :
  is_finite x = true → (y =? x) = true → ∃ s, Prim2SF (x - y) = S754_zero s.
Proof.
  intros Hx%is_finite_SF Heq. rewrite sub_spec. apply SFsub_eq; [|exact Hx].
  rewrite FloatAxioms.eqb_spec in Heq. unfold SFeqb in *.
  rewrite (SFcompare_swap (Prim2SF y) (Prim2SF x)).
  by destruct (SFcompare (Prim2SF y) (Prim2SF x)) as [[]|].
Qed.

Lemma sub_lt_neg x y : (x <? y) = true → (x - y <? 0) = true.
Proof.
  rewrite !ltb_spec, sub_spec. change (Prim2SF 0) with (S754_zero false).
  apply SFsub_lt; apply Prim2SF_valid.
Qed.

Lemma mul_finite_zero a z s :
  is_finite a = true → Prim2SF z = S754_zero s → ∃ s', Prim2SF (- a * z) = S754_zero s'.
Proof.
  intros Ha%is_finite_SF Hz. rewrite mul_spec, opp_spec, Hz.
  destruct (Prim2SF a) as [sa|sa| |sa ma ea]; cbn in *; try tauto; by eexists.
Qed.

Lemma div_pos_not_neg a y : (a <? 0) = false → (0 <? y) = true → (a / y <? 0) = false.
Proof. rewrite !ltb_spec, div_spec. apply SFdiv_not_neg. Qed.

Lemma M_LN2_not_neg : (M_LN2 <? 0) = false.
Proof. reflexivity. Qed.

Lemma ltb_nan_r x : (x <? nan) = false.
Proof. rewrite ltb_spec. change (Prim2SF nan) with S754_nan. by destruct (Prim2SF x) as [[]|[]| |[] ? ?]. Qed.

Lemma ltb_nan_l x : (nan <? x) = false.
Proof. rewrite ltb_spec. change (Prim2SF nan) with S754_nan. reflexivity. Qed.

Lemma mul_nan_r x : x * nan = nan.
Proof.
  apply Prim2SF_inj. rewrite mul_spec. change (Prim2SF nan) with S754_nan.
  by destruct (Prim2SF x).
Qed.

Lemma leb_0_nonneg x : (0 <=? x) = true ↔ SFnonneg (Prim2SF x) = true.
Proof. by rewrite leb_spec. Qed.
End Doubles.

(** ** What follows for [exp] *)

Section Exp.
Local Open Scope float_scope.
Variable exp : float → float.
Context {exp_special : IEC60559_exp exp}.

Lemma exp_of_zero z s : Prim2SF z = S754_zero s → exp z = 1.
Proof. intros [-> | ->]%Prim2SF_zero_inv; [apply exp_zero|apply exp_neg_zero]. Qed.

(** With a finite decay constant and no time elapsed the score is the count. *)
Lemma score_zero_dt count dc dt s :
  is_finite dc = true → Prim2SF dt = S754_zero s → count * exp (- dc * dt) = count.
Proof.
  intros Hdc Hdt. destruct (mul_finite_zero dc dt s Hdc Hdt) as [s' Hz].
  rewrite (exp_of_zero _ _ Hz). apply mul_1_r.
Qed.

(** The value of [exp] is between 0 and 1 on the numbers that are not positive. *)
Lemma exp_unit_range x :
  exp_monotone exp → (x <=? 0) = true → (0 <=? exp x) = true ∧ (exp x <=? 1) = true.
Proof.
  intros Hmono Hx. split.
  - rewrite <- exp_neg_infinity. apply Hmono.
    rewrite leb_spec in *. change (Prim2SF neg_infinity) with (S754_infinity true).
    apply SFleb_ninf. by destruct (Prim2SF x).
  - rewrite <- exp_zero. by apply Hmono.
Qed.

Lemma exp_monotone_nonnegative : exp_monotone exp → exp_nonnegative exp.
Proof.
  intros Hmono x. destruct (Prim2SF x) eqn:Hx.
  1,2,4: assert ((0 <=? exp x) = true) as H0;
    [rewrite <- exp_neg_infinity; apply Hmono; rewrite leb_spec, Hx; by destruct s
    |rewrite leb_spec in H0; rewrite ltb_spec; by apply SFleb_not_ltb].
  apply Prim2SF_nan_inv in Hx as ->. rewrite exp_nan. reflexivity.
Qed.
End Exp.

(** ** The arithmetic of one score *)

Section Score.
Local Open Scope float_scope.
Variable exp : float → float.

Lemma score_not_negative count a :
  exp_nonnegative exp → (0 <=? count) = true → (count * exp a <? 0) = false.
Proof.
  intros Hexp Hc. specialize (Hexp a).
  rewrite ltb_spec, mul_spec in *. change (Prim2SF 0) with (S754_zero false) in *.
  apply SFmul_not_neg; [|done].
  apply leb_0_nonneg, SFnonneg_iff in Hc as [_ Hc]. done.
Qed.

Context {exp_special : IEC60559_exp exp}.
Hypothesis exp_mono : exp_monotone exp.

(** The argument of [exp] is NaN or at most zero. *)
Lemma decay_argument dc dt :
  (dc <? 0) = false → (dt <? 0) = false →
  - dc * dt = nan ∨ (- dc * dt <=? 0) = true.
Proof.
  intros Hdc Hdt. rewrite ltb_spec in Hdc, Hdt. change (Prim2SF 0) with (S754_zero false) in *.
  pose proof (SFmul_not_neg _ _ Hdc Hdt) as HP.
  destruct (SFmul prec emax (Prim2SF dc) (Prim2SF dt)) as [s|s| |s m e] eqn:HM.
  1,2,4: right; rewrite leb_spec, mul_spec, opp_spec, SFmul_opp_l, HM;
    apply SFopp_nonneg, SFnonneg_iff; by split.
  left. apply Prim2SF_inj. by rewrite mul_spec, opp_spec, SFmul_opp_l, HM.
Qed.

(** A score never exceeds its count. *)
Lemma score_le_count count dc dt :
  (0 <=? count) = true → (dc <? 0) = false → (dt <? 0) = false →
  (count <? count * exp (- dc * dt)) = false.
Proof.
  intros Hc Hdc Hdt. destruct (decay_argument dc dt Hdc Hdt) as [-> | Harg].
  - by rewrite exp_nan, mul_nan_r, ltb_nan_r.
  - destruct (exp_unit_range exp _ exp_mono Harg) as [H0 H1].
    rewrite <- (mul_1_r count) at 1. rewrite ltb_spec, !mul_spec.
    apply SFmul_mono_nonneg; try apply Prim2SF_valid.
    + by apply leb_0_nonneg.
    + by apply leb_0_nonneg.
    + by rewrite <- leb_spec.
Qed.

Lemma max_0_nonneg dt : Prim2SF dt ≠ S754_nan → SFnonneg (Prim2SF (max_0 dt)) = true.
Proof.
  intros Hd. apply SFnonneg_iff. split.
  - unfold max_0. by destruct (dt <? 0).
  - pose proof (max_0_not_neg dt) as Hn. by rewrite ltb_spec in Hn.
Qed.

Lemma leb_not_nan x y :
  (x <=? y) = true → Prim2SF x ≠ S754_nan ∧ Prim2SF y ≠ S754_nan.
Proof.
  rewrite leb_spec. intros Hle. split; intros Hn; rewrite Hn in Hle; [done|].
  by destruct (Prim2SF x) as [[]|[]| |[] ? ?].
Qed.

Lemma max_0_mono dt1 dt2 : (dt1 <=? dt2) = true → (max_0 dt1 <=? max_0 dt2) = true.
Proof.
  intros Hle. destruct (leb_not_nan _ _ Hle) as [Hn1 Hn2]. rewrite leb_spec in Hle.
  pose proof (max_0_nonneg dt2 Hn2) as H2. unfold max_0 in *.
  destruct (dt1 <? 0) eqn:H1.
  - by rewrite leb_spec.
  - destruct (dt2 <? 0) eqn:H2'; [|by rewrite leb_spec].
    exfalso. rewrite ltb_spec in H1, H2'. change (Prim2SF 0) with (S754_zero false) in *.
    assert (SFnonneg (Prim2SF dt1) = true) as Hnn by (by apply SFnonneg_iff).
    pose proof (SFleb_nonneg_trans _ _ Hnn Hle) as [_ Hc]%SFnonneg_iff. congruence.
Qed.

(** With the same count and decay constant, a larger delta gives a
    score that is not larger. *)
Lemma score_antitone count dc dt1 dt2 :
  (0 <=? count) = true → (dc <? 0) = false → (dt1 <=? dt2) = true →
  (count * exp (- dc * max_0 dt1) <? count * exp (- dc * max_0 dt2)) = false.
Proof.
  intros Hc Hdc Hdt. destruct (leb_not_nan _ _ Hdt) as [Hn1 _].
  pose proof (max_0_mono _ _ Hdt) as Hm. rewrite leb_spec in Hm.
  destruct (decay_argument dc _ Hdc (max_0_not_neg dt1)) as [-> | Ha1];
    [by rewrite exp_nan, mul_nan_r, ltb_nan_l|].
  destruct (decay_argument dc _ Hdc (max_0_not_neg dt2)) as [-> | Ha2];
    [by rewrite exp_nan, mul_nan_r, ltb_nan_r|].
  destruct (exp_unit_range exp _ exp_mono Ha2) as [H0 _].
  assert ((- dc * max_0 dt2 <=? - dc * max_0 dt1) = true) as Hargs.
  { rewrite leb_spec in Ha1, Ha2 |- *.
    apply SFltb_false_leb.
    - intros Hn. by rewrite Hn in Ha1.
    - intros Hn. by rewrite Hn in Ha2.
    - rewrite !mul_spec, !opp_spec, !SFmul_opp_l. unfold SFltb. rewrite SFcompare_opp.
      fold (SFltb (SFmul prec emax (Prim2SF dc) (Prim2SF (max_0 dt2)))
                  (SFmul prec emax (Prim2SF dc) (Prim2SF (max_0 dt1)))).
      rewrite ltb_spec in Hdc. change (Prim2SF 0) with (S754_zero false) in Hdc.
      destruct (Prim2SF dc) eqn:Edc.
      1,2,4: apply SFmul_mono_nonneg; rewrite <- ?Edc; try apply Prim2SF_valid;
        [rewrite Edc; apply SFnonneg_iff; by split
        |by apply max_0_nonneg
        |done].
      reflexivity. }
  pose proof (exp_mono _ _ Hargs) as He.
  rewrite ltb_spec, !mul_spec.
  apply SFmul_mono_nonneg; try apply Prim2SF_valid.
  - by apply leb_0_nonneg.
  - by apply leb_0_nonneg.
  - by rewrite <- leb_spec.
Qed.
End Score.

(** ** The step function has the properties assumed of [exp] *)

Lemma exp_step_special : IEC60559_exp exp_step.
Proof. by split. Qed.

Lemma exp_step_monotone : exp_monotone exp_step.
Proof.
  intros x y. rewrite leb_spec. unfold exp_step.
  destruct (Prim2SF x) as [[]|[]| |[] ? ?], (Prim2SF y) as [[]|[]| |[] ? ?];
    intros Hle; try reflexivity; try discriminate Hle.
Qed.

Lemma exp_step_nonnegative : exp_nonnegative exp_step.
Proof. apply exp_monotone_nonnegative; [apply exp_step_special|apply exp_step_monotone]. Qed.

Lemma exp_step_accurate : exp_accurate_near_ln2 exp_step.
Proof.
  intros x Hlo Hhi. rewrite leb_spec, opp_spec in Hlo, Hhi.
  assert (exp_step x = 0.5%float) as ->; [|done].
  unfold exp_step.
  change (Prim2SF ln2_above) with (S754_finite false 6243314768165375 (-53)) in Hlo.
  change (Prim2SF ln2_below) with (S754_finite false 6243314768165343 (-53)) in Hhi.
  by destruct (Prim2SF x) as [[]|[]| |[] m e].
Qed.

(** Maps of floats are numeric. *)
Lemma py_floats_numeric (ac lat : gmap string float) :
  numeric py_cast (PyFloat <$> ac) (PyFloat <$> lat).
Proof.
  intros k v. rewrite lookup_fmap. destruct (ac !! k); intros [= <-].
  split; [by eexists|]. intros t. rewrite lookup_fmap.
  destruct (lat !! k); intros [= <-]. by eexists.
Qed.

(** ** One half-life

    After one half-life the score is half the count, as far as
    rounding and the accuracy of [exp] allow. *)

Section HalfLifeUnits.
Local Open Scope Z_scope.

(** The mantissa of [M_LN2]. *)
Local Abbreviation mL := 6243314768165359.

(** The decay constant on integers: [d] is the quotient of [M_LN2]
    and the half-life [h], rounded at the unit [u]; [B] is the unit of
    the last place of [M_LN2] and [U] is the number one.  The quotient
    has at least 50 significant bits, so its product with [h] is
    within 12 units of [M_LN2]. *)
Lemma quotient_units B U h d u :
  1 <= B -> U = 9007199254740992 * B -> 0 < h < 8 * B * U ->
  0 <= d -> 1 <= u ->
  (d - u) * h <= mL * B * U <= (d + u) * h ->
  (u = 1 \/ 4503599627370496 * u <= d) ->
  562949953421312 * u <= d /\ Z.abs (d * h - mL * (B * U)) <= 12 * (B * U).
Proof.
  intros HB HU Hh Hd Hu Hdiv Hn.
  assert (HBU : 0 < B * U) by (apply Z.mul_pos_pos; lia).
  assert (H49 : 562949953421312 * u <= d).
  { destruct Hn as [->|Hn]; [|lia].
    assert ((d + 1) * h <= (d + 1) * (8 * B * U)) by (apply Z.mul_le_mono_nonneg_l; lia).
    assert (mL * (B * U) <= (8 * (d + 1)) * (B * U)) by lia.
    apply Z.mul_le_mono_pos_r in H0; lia. }
  split; [done|].
  assert (HW : 562949953421312 * (u * h) <= d * h).
  { rewrite Z.mul_assoc. apply Z.mul_le_mono_nonneg_r; lia. }
  assert (HW0 : 0 <= u * h) by (apply Z.mul_nonneg_nonneg; lia).
  lia.
Qed.

(** The argument of [exp] after one half-life, on integers: [P] is
    the product of the decay constant and the half-life, rounded at
    the unit [u'].  It is within 15 units of [M_LN2]. *)
Lemma product_units B U dh P u' :
  1 <= B -> U = 9007199254740992 * B ->
  Z.abs (dh - mL * (B * U)) <= 12 * (B * U) ->
  1 <= u' -> Z.abs (P * U - dh) <= u' * U ->
  (u' = 1 \/ 4503599627370496 * u' <= Z.abs P) ->
  Z.abs (P - mL * B) <= 15 * B.
Proof.
  intros HB HU Hdh Hu' Hmul Hn'.
  assert (HBU : 0 < B * U) by (apply Z.mul_pos_pos; lia).
  assert (Hu'U : u' * U <= 3 * (B * U)).
  { destruct Hn' as [->|Hn'].
    - assert (1 * U <= B * U) by (apply Z.mul_le_mono_nonneg_r; lia). lia.
    - assert (4503599627370496 * u' * U <= Z.abs P * U) by (apply Z.mul_le_mono_nonneg_r; lia).
      rewrite <- (Z.abs_eq U) in H at 2 by lia. rewrite <- Z.abs_mul in H. lia. }
  assert (Z.abs ((P - mL * B) * U) <= (15 * B) * U) by lia.
  rewrite Z.abs_mul, (Z.abs_eq U) in H by lia.
  apply Z.mul_le_mono_pos_r in H; lia.
Qed.

(** The score after one half-life, on integers: [c] is the count, [e]
    the value of [exp], within [2 * D] of a half, and [s] their product
    rounded at the unit [u]. *)
Lemma half_score_units U D c e s u :
  1 <= D -> U = 4294967296 * D -> Z.abs (2 * e - U) <= 2 * D -> 0 <= e ->
  1 <= u -> Z.abs (s * U - c * e) <= u * U ->
  (u = 1 \/ 4503599627370496 * u <= Z.abs s) ->
  4503599627370496 <= Z.abs c ->
  10 ^ 9 * Z.abs (2 * s - c) <= Z.abs c.
Proof.
  intros HD HU He He0 Hu Hmul Hn Hc.
  assert (HU0 : 0 < U) by lia.
  assert (HeU : e <= U) by lia.
  assert (Hce : Z.abs (c * e) <= Z.abs c * U).
  { rewrite Z.abs_mul, (Z.abs_eq e) by done. apply Z.mul_le_mono_nonneg_l; lia. }
  assert (H32 : 4294967296 * u <= Z.abs c).
  { destruct Hn as [->|Hn]; [lia|].
    assert (4503599627370496 * u * U <= Z.abs s * U) by (apply Z.mul_le_mono_nonneg_r; lia).
    rewrite <- (Z.abs_eq U) in H at 2 by lia. rewrite <- Z.abs_mul in H.
    assert ((4503599627370495 * u) * U <= Z.abs c * U) by lia.
    apply Z.mul_le_mono_pos_r in H0; lia. }
  assert (HcD : Z.abs (c * (2 * e - U)) <= Z.abs c * (2 * D)).
  { rewrite Z.abs_mul. apply Z.mul_le_mono_nonneg_l; lia. }
  assert (H32D : 4294967296 * u * D <= Z.abs c * D) by (apply Z.mul_le_mono_nonneg_r; lia).
  assert (Z.abs ((2 * s - c) * U) <= 2 * (u * U) + Z.abs c * (2 * D)) by lia.
  rewrite Z.abs_mul, (Z.abs_eq U) in H by lia.
  assert ((10 ^ 9 * Z.abs (2 * s - c)) * U <= Z.abs c * U).
  { change (10 ^ 9) with 1000000000. subst U. lia. }
  apply Z.mul_le_mono_pos_r in H0; lia.
Qed.
End HalfLifeUnits.

Section HalfLifeDoubles.
Local Open Scope float_scope.

(** A finite double is less than 2^1024, which is [8 * 2^1021] numbers
    one. *)
Lemma SFunits_bound m e s :
  bounded prec emax m e = true →
  (0 < Z.pos m * 2 ^ (e - emin) < 8 * 2 ^ 1021 * 2 ^ 1074)%Z ∧
  (Z.abs (SFunits (S754_finite s m e)) = Z.pos m * 2 ^ (e - emin))%Z.
Proof.
  intros (B & D & _)%bounded_log2.
  assert (0 < 2 ^ (e - emin))%Z by (apply Z.pow_pos_nonneg; lia).
  assert (0 < Z.pos m * 2 ^ (e - emin))%Z by (apply Z.mul_pos_pos; lia).
  split; [split; [done|]|destruct s; cbn [SFunits cond_Zopp]; lia].
  pose proof (log2_bounds (Z.pos m) ltac:(lia)) as L.
  assert (Z.pos m < 2 ^ prec)%Z.
  { eapply Z.lt_le_trans; [apply L|]. apply Z.pow_le_mono_r; lia. }
  assert (2 ^ (e - emin) <= 2 ^ (emax - prec - emin))%Z by (apply Z.pow_le_mono_r; lia).
  change (8 * 2 ^ 1021 * 2 ^ 1074)%Z with (2 ^ prec * 2 ^ (emax - prec - emin))%Z.
  apply Z.le_lt_trans with (Z.pos m * 2 ^ (emax - prec - emin))%Z;
    [apply Z.mul_le_mono_nonneg_l; lia|apply Z.mul_lt_mono_pos_r; [done|lia]].
Qed.

Lemma pos_finite_SF x :
  (0 <? x) = true → is_finite x = true →
  ∃ m e, Prim2SF x = S754_finite false m e ∧ bounded prec emax m e = true.
Proof.
  intros Hpos Hfin%is_finite_SF. rewrite ltb_spec in Hpos.
  pose proof (Prim2SF_valid x) as V.
  destruct (Prim2SF x) as [[]|[]| |[] m e]; try done. by exists m, e.
Qed.

(** After one half-life the argument of [exp] is within 16 units of
    the last place of [-M_LN2], whatever the half-life. *)
Lemma decay_argument_near_ln2 hl :
  (0 <? hl) = true → is_finite hl = true → is_finite (M_LN2 / hl) = true →
  (- ln2_above <=? - (M_LN2 / hl) * hl) = true ∧
  (- (M_LN2 / hl) * hl <=? - ln2_below) = true.
Proof.
  intros Hpos Hfin Hdc.
  destruct (pos_finite_SF hl Hpos Hfin) as (mh & eh & Hh & Bh).
  apply is_finite_SF in Hdc. pose proof (Prim2SF_valid (M_LN2 / hl)) as Vdc.
  pose proof (Prim2SF_valid (M_LN2 / hl * hl)) as Vp.
  rewrite mul_spec in Vp. rewrite div_spec, Hh in Hdc, Vdc, Vp.
  rewrite !leb_spec, mul_spec, !opp_spec, SFmul_opp_l, div_spec, Hh.
  unfold SFleb. rewrite !SFcompare_opp.
  change (Prim2SF M_LN2) with (S754_finite false 6243314768165359 (-53)) in *.
  assert (BL : bounded prec emax 6243314768165359 (-53) = true) by reflexivity.
  unfold SF64div, SF64mul in *.
  destruct (SFdiv_units _ _ mh eh BL Bh) as [Hinf|(_ & Hd0 & u & Hu & Hdiv & Hn)];
    [by rewrite Hinf in Hdc|].
  destruct (SFunits_bound mh eh false Bh) as [Hhb _].
  set (dc := SFdiv prec emax _ _) in *.
  cbn [SFunits cond_Zopp] in Hdiv.
  set (h := (Z.pos mh * 2 ^ (eh - emin))%Z) in *.
  change (2 ^ (-53 - emin))%Z with (2 ^ 1021)%Z in Hdiv.
  change (2 ^ (- emin))%Z with (2 ^ 1074)%Z in Hdiv.
  change (2 ^ (prec - 1))%Z with 4503599627370496%Z in Hn.
  assert (HB : (1 <= 2 ^ 1021)%Z) by done.
  assert (HU : (2 ^ 1074 = 9007199254740992 * 2 ^ 1021)%Z) by done.
  assert (Hov : (4 * 2 ^ 1021 <= 2 ^ (emax - prec + 1 - emin))%Z) by done.
  destruct (quotient_units _ _ h _ u HB HU Hhb Hd0 Hu Hdiv Hn) as [H49 Hdh].
  assert (∃ md ed, dc = S754_finite false md ed ∧ bounded prec emax md ed = true)
    as (md & ed & Edc & Bd).
  { destruct dc as [s|s| |s md ed]; try done; try (exfalso; cbn [SFunits] in H49; lia).
    exists md, ed. split; [|done]. destruct s; [|done]. exfalso.
    destruct (SFunits_bound md ed true Vdc) as [[? _] _]. cbn [SFunits cond_Zopp] in Hd0. lia. }
  rewrite Edc in *. cbn [SFunits cond_Zopp] in Hdh. 
  destruct (SFmul_units false md ed false mh eh Bd Bh) as [[Hinf Hbig]|(Hf & u' & Hu' & Hmul & Hn')];
    cbn [xorb] in *; set (p := SFmul prec emax _ _) in *.
  - exfalso. cbn [SFunits cond_Zopp] in Hbig. fold h in Hbig.
    change (2 ^ (prec - 1))%Z with 4503599627370496%Z in Hbig.
    change (2 ^ (- emin))%Z with (2 ^ 1074)%Z in Hbig.
    revert Hbig Hov. generalize (2 ^ (emax - prec + 1 - emin))%Z. intros T Hbig Hov.
    revert HB HU Hdh Hbig Hov. generalize (Z.pos md * 2 ^ (ed - emin) * h)%Z (2 ^ 1021)%Z (2 ^ 1074)%Z.
    intros dh B U HB HU Hdh Hbig Hov.
    assert (4 * B * U <= T * U)%Z by (apply Z.mul_le_mono_nonneg_r; lia).
    assert (0 < B * U)%Z by (apply Z.mul_pos_pos; lia). lia.
  - change (2 ^ (prec - 1))%Z with 4503599627370496%Z in Hn'.
    change (2 ^ (- emin))%Z with (2 ^ 1074)%Z in Hmul.
    cbn [SFunits cond_Zopp] in Hmul. fold h in Hmul.
    pose proof (product_units _ _ _ _ u' HB HU Hdh Hu' Hmul Hn') as Hw.
    change (Prim2SF ln2_above) with (S754_finite false 6243314768165375 (-53)).
    change (Prim2SF ln2_below) with (S754_finite false 6243314768165343 (-53)).
    rewrite !SFcompare_units by done. cbn [SFunits cond_Zopp].
    change (2 ^ (-53 - emin))%Z with (2 ^ 1021)%Z.
    revert HB Hw. generalize (2 ^ 1021)%Z (SFunits p). intros B P HB Hw.
    assert (P <= 6243314768165375 * B ∧ 6243314768165343 * B <= P)%Z as [H1 H2] by lia.
    unfold Z.le in H1, H2.
    split; [destruct (P ?= _)%Z|destruct (_ ?= P)%Z]; congruence.
Qed.

Lemma SF_is_finite x : SFfinite (Prim2SF x) → is_finite x = true.
Proof.
  unfold is_finite, is_nan, is_infinity. rewrite !FloatAxioms.eqb_spec, abs_spec.
  change (Prim2SF infinity) with (S754_infinity false).
  destruct (Prim2SF x) as [[]|[]| |[] m e] eqn:E; cbn [SFfinite]; try tauto; intros _;
    unfold SFeqb; cbn [SFcompare SFabs]; rewrite ?Z.compare_refl, ?Pos.compare_cont_refl; reflexivity.
Qed.

(** A count that is zero or normal, times a factor within 2^-32 of a
    half, is half the count within 1e-9. *)
Lemma half_score count e :
  zero_or_normal count = true →
  (half_below <=? e) = true → (e <=? half_above) = true →
  within_1e9_of_half (count * e) count = true.
Proof.
  intros Hc Hlo Hhi. rewrite leb_spec in Hlo, Hhi.
  pose proof (Prim2SF_valid e) as Ve. pose proof (Prim2SF_valid count) as Vc.
  pose proof (Prim2SF_valid (count * e)) as Vs. 
  unfold within_1e9_of_half, units. apply andb_true_iff.
  rewrite Z.leb_le. assert (SFfinite (Prim2SF (count * e)) → is_finite (count * e) = true) as Hfin by apply SF_is_finite.
  rewrite mul_spec in *. unfold SF64mul in *.
  change (Prim2SF half_below) with (S754_finite false 9007199250546688 (-54)) in Hlo.
  change (Prim2SF half_above) with (S754_finite false 4503599629467648 (-53)) in Hhi.
  assert (∃ me ee, Prim2SF e = S754_finite false me ee) as (me & ee & He).
  { destruct (Prim2SF e) as [[]|[]| |[] me ee]; try done. by exists me, ee. }
  rewrite He in *. cbn [valid_binary] in Ve.
  apply (proj1 (SFleb_units (S754_finite false 9007199250546688 (-54)) (S754_finite false me ee) eq_refl Ve I I)) in Hlo.
  apply (proj1 (SFleb_units (S754_finite false me ee) (S754_finite false 4503599629467648 (-53)) Ve eq_refl I I)) in Hhi.
  cbn [SFunits cond_Zopp] in Hlo, Hhi.
  change (9007199250546688 * 2 ^ (-54 - emin))%Z with (2147483647 * 2 ^ 1042)%Z in Hlo.
  change (4503599629467648 * 2 ^ (-53 - emin))%Z with (2147483649 * 2 ^ 1042)%Z in Hhi.
  unfold zero_or_normal in Hc.
  rewrite orb_true_iff, andb_true_iff, FloatAxioms.eqb_spec, leb_spec, ltb_spec, abs_spec in Hc.
  change (Prim2SF 0x1p-1022) with (S754_finite false 4503599627370496 (-1074)) in Hc.
  destruct (Prim2SF count) as [sc|sc| |sc mc ec] eqn:Ec.
  - cbn [SFmul SFunits SFfinite] in *. split; [by apply Hfin|]. cbn. lia.
  - exfalso. destruct Hc as [Hc|[_ Hc]]; by destruct sc.
  - exfalso. by destruct Hc as [Hc|[Hc _]].
  - destruct Hc as [Hc|[Hc _]]; [by destruct sc|]. cbn [SFabs valid_binary] in *.
    apply (proj1 (SFleb_units (S754_finite false 4503599627370496 (-1074)) (S754_finite false mc ec) eq_refl Vc I I)) in Hc. cbn [SFunits cond_Zopp] in Hc.
    change (4503599627370496 * 2 ^ (-1074 - emin))%Z with 4503599627370496%Z in Hc.
    destruct (SFunits_bound mc ec sc Vc) as [Hcb Habs].
    destruct (SFmul_units sc mc ec false me ee Vc Ve) as [[Hinf Hbig]|(Hf & u & Hu & Hmul & Hn)].
    + exfalso. clear Hinf. rewrite Z.abs_mul, Habs in Hbig. cbn [SFunits cond_Zopp] in Hbig.
      change (2 ^ (prec - 1) - 1)%Z with 4503599627370495%Z in Hbig.
      change (2 ^ (emax - prec + 1 - emin))%Z with (16 * 2 ^ 1021 * 2 ^ 1021)%Z in Hbig.
      change (2 ^ (- emin))%Z with (9007199254740992 * 2 ^ 1021)%Z in Hbig.
      change (2 ^ 1074)%Z with (9007199254740992 * 2 ^ 1021)%Z in Hcb.
      change (2 ^ 1042)%Z with (2097152 * 2 ^ 1021)%Z in Hhi.
      assert (HG : (0 < 2 ^ 1021)%Z) by done.
      destruct (SFunits_bound me ee false Ve) as [[Hem _] _].
      revert Hbig Hcb Hhi HG Hem.
      generalize (2 ^ 1021)%Z (Z.pos mc * 2 ^ (ec - emin))%Z (Z.pos me * 2 ^ (ee - emin))%Z.
      intros G cm em Hbig Hcb Hhi HG Hem. rewrite Z.abs_eq in Hbig by lia.
      assert (cm * em <= 8 * G * (9007199254740992 * G) * (2147483649 * (2097152 * G)))%Z
        by (apply Z.mul_le_mono_nonneg; lia).
      assert (0 < G * G * G)%Z by (repeat apply Z.mul_pos_pos; done).
      replace (4503599627370495 * (16 * G * G) * (9007199254740992 * G))%Z
        with (4503599627370495 * 16 * 9007199254740992 * (G * G * G))%Z in Hbig by ring.
      replace (8 * G * (9007199254740992 * G) * (2147483649 * (2097152 * G)))%Z
        with (8 * 9007199254740992 * 2147483649 * 2097152 * (G * G * G))%Z in H by ring.
      lia.
    + split; [by apply Hfin|].
      change (2 ^ (prec - 1))%Z with 4503599627370496%Z in Hn.
      change (2 ^ (- emin))%Z with (2 ^ 1074)%Z in Hmul.
      cbn [SFunits cond_Zopp] in Hmul.
      apply (half_score_units (2 ^ 1074) (2 ^ 1042) _ (Z.pos me * 2 ^ (ee - emin)) _ u);
        try done; [|lia|by rewrite Habs].
      change (2 ^ 1074)%Z with (4294967296 * 2 ^ 1042)%Z.
      revert Hlo Hhi. generalize (2 ^ 1042)%Z (Z.pos me * 2 ^ (ee - emin))%Z. lia.
Qed.

Lemma ltb_asym x y : (x <? y) = true → (y <? x) = false.
Proof.
  rewrite !ltb_spec. unfold SFltb. rewrite (SFcompare_swap (Prim2SF x) (Prim2SF y)).
  by destruct (SFcompare (Prim2SF x) (Prim2SF y)) as [[]|].
Qed.

(** The score of the specification when the delta is the half-life. *)
Lemma score_after_half_life exp count t0 ct hl :
  exp_accurate_near_ln2 exp →
  (0 <? hl) = true → is_finite hl = true → is_finite (M_LN2 / hl) = true →
  zero_or_normal count = true → ct - t0 = hl →
  within_1e9_of_half (spec_score exp count t0 ct hl) count = true.
Proof.
  intros Hexp Hpos Hfin Hdc Hc Hdt. unfold spec_score, max_0.
  rewrite Hdt, (ltb_asym _ _ Hpos).
  destruct (decay_argument_near_ln2 hl Hpos Hfin Hdc) as [Hlo Hhi].
  destruct (Hexp _ Hlo Hhi) as [Elo Ehi]. by apply half_score.
Qed.
End HalfLifeDoubles.

(** * Part III: the loop *)

Section Loop.
Local Open Scope float_scope.
Context `{Countable Key} {PyObject : Type}.
Variable cast_double : PyObject → option float.
Variable exp : float → float.

Local Abbreviation item_score := (item_score cast_double exp).
Local Abbreviation score_items := (score_items cast_double exp).
Local Abbreviation compute_hotness_scores := (compute_hotness_scores cast_double exp).
Local Abbreviation last_time_of := (last_time_of cast_double).
Local Abbreviation count_of := (count_of cast_double).
Local Abbreviation numeric := (numeric cast_double).

Lemma item_score_Ok (lat : gmap Key PyObject) ct dc k v s :
  item_score lat ct dc k v = Ok s ↔
  ∃ count last_time,
    cast_double v = Some count ∧ last_time_of lat ct k = Some last_time ∧
    s = count * exp (- dc * max_0 (ct - last_time)).
Proof.
  unfold item_score, last_time_of, max_0, cast, mbind, result_bind.
  destruct (cast_double v) as [count|]; cbn.
  - destruct (lat !! k) as [t|]; cbn.
    + destruct (cast_double t) as [lt|]; cbn.
      * split; [intros [= <-]; eauto | intros (?&?&[= <-]&[= <-]&->); done].
      * split; [done | intros (?&?&_&?&_); done].
    + split; [intros [= <-]; eauto | intros (?&?&[= <-]&[= <-]&->); done].
  - split; [done | intros (?&?&?&_); done].
Qed.

Lemma score_items_Ok (lat : gmap Key PyObject) ct dc items scores scores' :
  NoDup items.*1 →
  score_items lat ct dc items scores = Ok scores' →
  (∀ k v, (k, v) ∈ items →
     ∃ s, item_score lat ct dc k v = Ok s ∧ scores' !! k = Some s) ∧
  (∀ k, k ∉ items.*1 → scores' !! k = scores !! k).
Proof.
  revert scores. induction items as [|[k0 v0] items IH]; intros scores Hnd Hrun.
  - injection Hrun as <-. split; [intros k v Hin; inversion Hin | done].
  - cbn in Hnd. apply NoDup_cons in Hnd as [Hk0 Hnd].
    cbn in Hrun. unfold mbind, result_bind in Hrun.
    destruct (item_score lat ct dc k0 v0) as [s0|] eqn:Hs0; [|done].
    destruct (IH _ Hnd Hrun) as [Hin Hout]. split.
    + intros k v [[= -> ->]|Hkv]%elem_of_cons.
      * exists s0. split; [done|]. rewrite (Hout _ Hk0). apply lookup_insert_eq.
      * by apply Hin.
    + intros k Hk. cbn in Hk. apply not_elem_of_cons in Hk as [Hne Hk].
      rewrite (Hout _ Hk). by apply lookup_insert_ne.
Qed.

Lemma score_items_returns (lat : gmap Key PyObject) ct dc items scores :
  (∀ k v, (k, v) ∈ items → ∃ s, item_score lat ct dc k v = Ok s) →
  ∃ scores', score_items lat ct dc items scores = Ok scores'.
Proof.
  revert scores. induction items as [|[k0 v0] items IH]; intros scores Hall.
  - by eexists.
  - destruct (Hall k0 v0) as [s0 Hs0]; [left|].
    cbn. unfold mbind, result_bind. rewrite Hs0.
    apply IH. intros k v Hkv. apply Hall. by right.
Qed.

(** The loop reads [last_access_times] at the keys of the items only. *)
Lemma score_items_agree (lat lat' : gmap Key PyObject) ct dc items scores :
  (∀ k v, (k, v) ∈ items → lat !! k = lat' !! k) →
  score_items lat ct dc items scores = score_items lat' ct dc items scores.
Proof.
  revert scores. induction items as [|[k0 v0] items IH]; intros scores Hag; [done|].
  cbn. assert (item_score lat ct dc k0 v0 = item_score lat' ct dc k0 v0) as ->.
  { unfold item_score. rewrite (Hag k0 v0); [done|left]. }
  unfold mbind, result_bind. destruct (item_score lat' ct dc k0 v0); [|done].
  apply IH. intros k v Hkv. apply (Hag k v). by right.
Qed.

Lemma numeric_item_score (ac lat : gmap Key PyObject) ct dc k v :
  numeric ac lat → ac !! k = Some v → ∃ s, item_score lat ct dc k v = Ok s.
Proof.
  intros Hnum Hk. destruct (Hnum k v Hk) as [[count Hc] Hlt].
  assert (∃ last_time, last_time_of lat ct k = Some last_time) as [lt Hl].
  { unfold last_time_of. destruct (lat !! k) as [t|]; [|by eexists].
    destruct (Hlt t) as [? ->]; [done|by eexists]. }
  eexists. apply item_score_Ok. by exists count, lt.
Qed.

(** What a call returns: a score for each key of [access_counts], no
    other key, and each score as the loop body computes it. *)
Lemma compute_hotness_scores_Ok (ac lat : gmap Key PyObject) ct hl scores :
  compute_hotness_scores ac lat ct hl = Ok scores →
  (∀ k v, ac !! k = Some v →
     ∃ s, item_score lat ct (M_LN2 / hl) k v = Ok s ∧ scores !! k = Some s) ∧
  (∀ k, ac !! k = None → scores !! k = None).
Proof.
  unfold compute_hotness_scores. intros Hrun.
  apply score_items_Ok in Hrun as [Hin Hout]; [|apply NoDup_fst_map_to_list].
  split.
  - intros k v Hk. by apply Hin, elem_of_map_to_list.
  - intros k Hk. rewrite Hout; [done|].
    intros [[k' v] [-> Hkv%elem_of_map_to_list]]%list_elem_of_fmap. cbn in Hk. congruence.
Qed.

(** A call returns when the values are numbers, and only then. *)
Lemma compute_hotness_scores_returns (ac lat : gmap Key PyObject) ct hl :
  numeric ac lat → ∃ scores, compute_hotness_scores ac lat ct hl = Ok scores.
Proof.
  intros Hnum. apply score_items_returns.
  intros k v Hkv%elem_of_map_to_list. by eapply numeric_item_score.
Qed.

Lemma compute_hotness_scores_numeric (ac lat : gmap Key PyObject) ct hl scores :
  compute_hotness_scores ac lat ct hl = Ok scores → numeric ac lat.
Proof.
  intros [Hin _]%compute_hotness_scores_Ok k v Hk.
  destruct (Hin k v Hk) as (s & (count & lt & Hc & Hl & _)%item_score_Ok & _).
  split; [by eexists|]. intros t Ht. unfold last_time_of in Hl. rewrite Ht in Hl. by eexists.
Qed.

Lemma compute_hotness_scores_dom (ac lat : gmap Key PyObject) ct hl scores :
  compute_hotness_scores ac lat ct hl = Ok scores → dom scores = dom ac.
Proof.
  intros [Hin Hout]%compute_hotness_scores_Ok. apply set_eq. intros k.
  rewrite !elem_of_dom. destruct (ac !! k) as [v|] eqn:Hk.
  - destruct (Hin k v Hk) as (s & _ & ->). split; by eexists.
  - rewrite (Hout k Hk). split; intros [? [=]].
Qed.

(** The score of a key, in a call on numbers. *)
Lemma compute_hotness_scores_lookup (ac lat : gmap Key PyObject) ct hl k count last_time :
  numeric ac lat → count_of ac k = Some count → last_time_of lat ct k = Some last_time →
  ∃ scores, compute_hotness_scores ac lat ct hl = Ok scores ∧
    scores !! k = Some (count * exp (- (M_LN2 / hl) * max_0 (ct - last_time))).
Proof.
  intros Hnum Hc Hl. destruct (compute_hotness_scores_returns ac lat ct hl Hnum) as [scores Hrun].
  exists scores. split; [done|].
  unfold count_of in Hc. destruct (ac !! k) as [v|] eqn:Hk; [cbn in Hc|done].
  apply compute_hotness_scores_Ok in Hrun as [Hin _].
  destruct (Hin k v Hk) as (s & (c & l & Hc' & Hl' & ->)%item_score_Ok & ->).
  congruence.
Qed.
End Loop.

(** ** The call on the heap *)

Section CallsOnHeap.
Local Open Scope float_scope.
Context `{Countable Key} {PyObject : Type}.
Variable cast_double : PyObject → option float.
Variable exp : float → float.
Variable py_float : float → PyObject.
Variable alloc : gmap loc (gmap Key PyObject) → loc.

Local Abbreviation heap := (gmap loc (gmap Key PyObject)).
Local Abbreviation store_scores := (store_scores cast_double exp py_float).
Local Abbreviation call_compute_hotness_scores :=
  (call_compute_hotness_scores cast_double exp py_float alloc).

(** A new object is none of those that exist. *)
Hypothesis alloc_fresh : ∀ h, h !! alloc h = None.

Lemma store_scores_spec lat scores ct dc items (h0 : heap) (acc : gmap Key float) :
  h0 !! scores = None → lat ≠ scores →
  ∃ acc', store_scores lat scores ct dc items (<[scores := py_float <$> acc]> h0) =
    (match score_items cast_double exp (h0 !!! lat) ct dc items acc with
     | Ok _ => Ok ()
     | Raise e => Raise e
     end, <[scores := py_float <$> acc']> h0) ∧
    ∀ s, score_items cast_double exp (h0 !!! lat) ct dc items acc = Ok s → acc' = s.
Proof.
  intros Hfresh Hne. revert acc. induction items as [|[key value] rest IH]; intros acc.
  { exists acc. split; [done|]. by intros s [= ->]. }
  cbn [store_scores score_items]. rewrite lookup_total_insert_ne by congruence.
  destruct (item_score _ _ _ _ _ _ _) as [score|e]; cbn.
  - rewrite lookup_total_insert_eq, insert_insert_eq, <- fmap_insert. apply IH.
  - exists acc. split; [done|]. by intros s.
Qed.

(** The call on the heap is the function of Part I applied to the two
    dictionaries: it allocates the result and writes nowhere else. *)
Lemma call_compute_hotness_scores_spec ac lat ct hl (h : heap) :
  is_Some (h !! ac) → is_Some (h !! lat) →
  call_compute_hotness_scores ac lat ct hl h =
  match compute_hotness_scores cast_double exp (h !!! ac) (h !!! lat) ct hl with
  | Ok s => (Ok (alloc h), <[alloc h := py_float <$> s]> h)
  | Raise e => (Raise e, h)
  end.
Proof.
  intros Hac Hlat. pose proof (alloc_fresh h) as Hfresh.
  assert (ac ≠ alloc h) as Hac' by (intros ->; rewrite Hfresh in Hac; by destruct Hac).
  assert (lat ≠ alloc h) as Hlat' by (intros ->; rewrite Hfresh in Hlat; by destruct Hlat).
  unfold call_compute_hotness_scores, compute_hotness_scores.
  rewrite lookup_total_insert_ne by congruence.
  destruct (store_scores_spec lat (alloc h) ct (M_LN2 / hl) (map_to_list (h !!! ac)) h ∅
              Hfresh Hlat') as (acc' & Hrun & Hacc).
  rewrite fmap_empty in Hrun. rewrite Hrun.
  destruct (score_items _ _ _ _ _ _ _) as [s|e].
  - by rewrite (Hacc s).
  - by rewrite delete_insert_id.
Qed.
End CallsOnHeap.

(** * Part IV: the properties of the specification *)

Section Claims.
Local Open Scope float_scope.
Context `{Countable Key} {PyObject : Type}.
Variable cast_double : PyObject → option float.
Variable exp : float → float.

Local Abbreviation compute_hotness_scores := (compute_hotness_scores cast_double exp).
Local Abbreviation last_time_of := (last_time_of cast_double).
Local Abbreviation count_of := (count_of cast_double).
Local Abbreviation numeric := (numeric cast_double).

(** C1. The result has a score for every key of [access_counts] and
    for no other key, whatever keys [last_access_times] has: the key
    set of the result is the key set of [access_counts]. *)
Theorem result_keys (ac lat : gmap Key PyObject) ct hl :
  numeric ac lat →
  ∃ scores, compute_hotness_scores ac lat ct hl = Ok scores ∧
    dom scores = dom ac ∧
    ∀ k, is_Some (scores !! k) ↔ is_Some (ac !! k).
Proof.
  intros Hnum. destruct (compute_hotness_scores_returns _ exp ac lat ct hl Hnum) as [scores Hrun].
  exists scores. split; [done|].
  pose proof (compute_hotness_scores_dom _ _ _ _ _ _ _ Hrun) as Hdom.
  split; [done|]. intros k. by rewrite <- !elem_of_dom, Hdom.
Qed.

(** C2. The score of a key is the formula of the specification:
    [count * exp (-(ln 2 / halfLife) * max(0, currentTime - lastTime))],
    where [lastTime] is the entry of the key in [last_access_times], or
    [current_time] when it has none.  It holds for every [half_life],
    the positive ones among them. *)
Theorem score_formula (ac lat : gmap Key PyObject) ct hl k count last_time :
  numeric ac lat →
  count_of ac k = Some count →
  last_time_of lat ct k = Some last_time →
  ∃ scores, compute_hotness_scores ac lat ct hl = Ok scores ∧
    scores !! k = Some (spec_score exp count last_time ct hl).
Proof. apply compute_hotness_scores_lookup. Qed.

(** C3, as the code has it.  [half_life] is not validated: with a
    zero or negative [half_life] a call on numbers returns a score for
    every key of [access_counts], as it does for any other value. *)
Theorem half_life_not_validated (ac lat : gmap Key PyObject) ct hl :
  (hl <=? 0) = true →
  numeric ac lat →
  ∃ scores, compute_hotness_scores ac lat ct hl = Ok scores ∧ dom scores = dom ac.
Proof.
  intros _ Hnum. destruct (compute_hotness_scores_returns _ exp ac lat ct hl Hnum) as [scores Hrun].
  exists scores. split; [done|]. by eapply compute_hotness_scores_dom.
Qed.

(** C4, amended.  When the decay constant [M_LN2 / half_life] and
    [current_time] are finite, a key with no entry in
    [last_access_times], or with an entry equal to [current_time], gets
    its count as its score, exactly. *)
Theorem zero_decay_exact `{!IEC60559_exp exp} (ac lat : gmap Key PyObject) ct hl k count :
  numeric ac lat →
  (0 <? hl) = true →
  is_finite (M_LN2 / hl) = true →
  is_finite ct = true →
  count_of ac k = Some count →
  (lat !! k = None ∨
   ∃ o t, lat !! k = Some o ∧ cast_double o = Some t ∧ (t =? ct) = true) →
  ∃ scores, compute_hotness_scores ac lat ct hl = Ok scores ∧
    scores !! k = Some count.
Proof.
  intros Hnum _ Hdc Hct Hc Hlat.
  assert (∃ t, last_time_of lat ct k = Some t ∧ (t =? ct) = true) as (t & Ht & Heq).
  { unfold last_time_of. destruct Hlat as [-> | (o & t & -> & Ho & Heq)].
    - exists ct. split; [done|]. by apply eqb_refl_finite.
    - by exists t. }
  destruct (compute_hotness_scores_lookup _ exp ac lat ct hl k count t Hnum Hc Ht)
    as (scores & Hrun & Hk).
  exists scores. split; [done|]. rewrite Hk. f_equal.
  destruct (sub_eq_zero ct t Hct Heq) as [s Hz].
  rewrite (max_0_zero _ _ Hz). by eapply score_zero_dt.
Qed.

(** C5, amended.  When the decay constant [M_LN2 / half_life] is
    finite, a key whose last access is later than [current_time] gets
    its count as its score: the negative delta is clamped to zero. *)
Theorem negative_delta_clamped `{!IEC60559_exp exp} (ac lat : gmap Key PyObject) ct hl k count o t :
  numeric ac lat →
  (0 <? hl) = true →
  is_finite (M_LN2 / hl) = true →
  count_of ac k = Some count →
  lat !! k = Some o → cast_double o = Some t → (ct <? t) = true →
  ∃ scores, compute_hotness_scores ac lat ct hl = Ok scores ∧
    scores !! k = Some count.
Proof.
  intros Hnum _ Hdc Hc Ho Ht Hlt.
  assert (last_time_of lat ct k = Some t) as Hl by (unfold last_time_of; by rewrite Ho).
  destruct (compute_hotness_scores_lookup _ exp ac lat ct hl k count t Hnum Hc Hl)
    as (scores & Hrun & Hk).
  exists scores. split; [done|]. rewrite Hk. f_equal.
  unfold max_0. rewrite (sub_lt_neg _ _ Hlt).
  by apply (score_zero_dt exp count _ 0 false).
Qed.

(** C6, amended.  When every count is at least zero, no score is
    negative: each is at least zero or is NaN. *)
Theorem scores_not_negative (ac lat : gmap Key PyObject) ct hl :
  exp_nonnegative exp →
  numeric ac lat →
  (∀ k count, count_of ac k = Some count → (0 <=? count) = true) →
  ∃ scores, compute_hotness_scores ac lat ct hl = Ok scores ∧
    ∀ k s, scores !! k = Some s → (s <? 0) = false.
Proof.
  intros Hexp Hnum Hpos.
  destruct (compute_hotness_scores_returns _ exp ac lat ct hl Hnum) as [scores Hrun].
  exists scores. split; [done|]. intros k s Hs.
  pose proof Hrun as [Hin Hout]%compute_hotness_scores_Ok.
  destruct (ac !! k) as [v|] eqn:Hk; [|rewrite (Hout k Hk) in Hs; done].
  destruct (Hin k v Hk) as (s' & (c & l & Hc & Hl & ->)%item_score_Ok & Hs').
  assert (s = c * exp (- (M_LN2 / hl) * max_0 (ct - l))) as -> by congruence.
  apply score_not_negative; [done|]. apply (Hpos k). unfold count_of. by rewrite Hk.
Qed.

(** C7. The call as the interpreter sees it, on dictionaries that
    live on a heap and are passed by reference.  A call made a second
    time returns a dictionary equal to the first, double for double,
    or throws as the first did; more, two calls whose dictionaries are
    equal return equal dictionaries wherever the dictionaries are and
    whatever else exists.  A call changes no object that exists, its
    two arguments among them, and the one object that it leaves
    behind is the dictionary that it returns. *)
Theorem same_dictionaries_same_scores (py_float : float → PyObject)
    (alloc : gmap loc (gmap Key PyObject) → loc)
    (h h' : gmap loc (gmap Key PyObject)) ac lat ac' lat' ct hl :
  (∀ h, h !! alloc h = None) →
  is_Some (h !! ac) → is_Some (h !! lat) →
  h' !! ac' = h !! ac → h' !! lat' = h !! lat →
  let call := call_compute_hotness_scores cast_double exp py_float alloc in
  returned (call ac lat ct hl (call ac lat ct hl h).2) = returned (call ac lat ct hl h) ∧
  returned (call ac' lat' ct hl h') = returned (call ac lat ct hl h) ∧
  (∀ l, is_Some (h !! l) → (call ac lat ct hl h).2 !! l = h !! l) ∧
  (∀ l, is_Some ((call ac lat ct hl h).2 !! l) →
     is_Some (h !! l) ∨ (call ac lat ct hl h).1 = Ok l).
Proof.
  intros Hfresh Hac Hlat Hac' Hlat' call.
  assert (Hsame : ∀ g a b, g !! a = h !! ac → g !! b = h !! lat →
            returned (call a b ct hl g) = returned (call ac lat ct hl h)).
  { intros g a b Ha Hb. unfold call.
    rewrite !call_compute_hotness_scores_spec by (done || by rewrite ?Ha, ?Hb).
    rewrite !lookup_total_alt, Ha, Hb.
    destruct (compute_hotness_scores _ _ _ _) as [s|e]; unfold returned; cbn; [|done].
    by rewrite !lookup_total_insert_eq. }
  assert (Hframe : ∀ l, is_Some (h !! l) → (call ac lat ct hl h).2 !! l = h !! l).
  { intros l Hl. unfold call. rewrite call_compute_hotness_scores_spec by done.
    destruct (compute_hotness_scores _ _ _ _) as [s|e]; cbn; [|done].
    apply lookup_insert_ne. intros <-. rewrite Hfresh in Hl. by destruct Hl. }
  split; [apply Hsame; by apply Hframe|]. split; [by apply Hsame|]. split; [done|].
  intros l. unfold call. rewrite call_compute_hotness_scores_spec by done.
  destruct (compute_hotness_scores _ _ _ _) as [s|e]; cbn; [|by left].
  destruct (decide (l = alloc h)) as [->|Hne]; [by right|].
  rewrite lookup_insert_ne by done. by left.
Qed.

(** C8, amended.  For a count that is at least zero and a positive
    [half_life], the score does not grow with the delta
    [current_time - last_time]: of two calls, the one with the larger
    delta does not give the key a larger score. *)
Theorem decay_monotone `{!IEC60559_exp exp} (ac lat1 lat2 : gmap Key PyObject)
    ct1 ct2 hl k count t1 t2 :
  exp_monotone exp →
  numeric ac lat1 → numeric ac lat2 →
  (0 <? hl) = true →
  count_of ac k = Some count → (0 <=? count) = true →
  last_time_of lat1 ct1 k = Some t1 →
  last_time_of lat2 ct2 k = Some t2 →
  (ct1 - t1 <=? ct2 - t2) = true →
  ∃ scores1 scores2 s1 s2,
    compute_hotness_scores ac lat1 ct1 hl = Ok scores1 ∧
    compute_hotness_scores ac lat2 ct2 hl = Ok scores2 ∧
    scores1 !! k = Some s1 ∧ scores2 !! k = Some s2 ∧
    (s1 <? s2) = false.
Proof.
  intros Hmono Hn1 Hn2 Hhl Hc Hpos Hl1 Hl2 Hdt.
  destruct (compute_hotness_scores_lookup _ exp ac lat1 ct1 hl k count t1 Hn1 Hc Hl1)
    as (scores1 & Hrun1 & Hk1).
  destruct (compute_hotness_scores_lookup _ exp ac lat2 ct2 hl k count t2 Hn2 Hc Hl2)
    as (scores2 & Hrun2 & Hk2).
  eexists scores1, scores2, _, _. repeat split; try done.
  apply score_antitone; try done.
  apply div_pos_not_neg; [apply M_LN2_not_neg|done].
Qed.

(** C10. For a count that is at least zero and a positive
    [half_life], the score of a key never exceeds its count. *)
Theorem score_at_most_count `{!IEC60559_exp exp} (ac lat : gmap Key PyObject) ct hl k count :
  exp_monotone exp →
  numeric ac lat →
  (0 <? hl) = true →
  count_of ac k = Some count → (0 <=? count) = true →
  ∃ scores s, compute_hotness_scores ac lat ct hl = Ok scores ∧
    scores !! k = Some s ∧ (count <? s) = false.
Proof.
  intros Hmono Hnum Hhl Hc Hpos.
  assert (∃ t, last_time_of lat ct k = Some t) as [t Hl].
  { unfold count_of in Hc. destruct (ac !! k) as [v|] eqn:Hk; [|done].
    destruct (Hnum k v Hk) as [_ Hlat]. unfold last_time_of.
    destruct (lat !! k) as [o|]; [|by eexists]. destruct (Hlat o) as [t ->]; [done|by eexists]. }
  destruct (compute_hotness_scores_lookup _ exp ac lat ct hl k count t Hnum Hc Hl)
    as (scores & Hrun & Hk).
  eexists scores, _. repeat split; try done.
  apply score_le_count; try done.
  - apply div_pos_not_neg; [apply M_LN2_not_neg|done].
  - apply max_0_not_neg.
Qed.

(** C9, amended.  One half-life after the last access the score is
    half the count within a relative error of 1e-9, when: the half-life
    is finite and the decay constant [M_LN2 / half_life] does not
    overflow; the delta that the code computes,
    [current_time - last_time], is the half-life; the count is zero or
    a normal number; and [exp] is accurate to 2^-32 near [-ln 2]. *)
Theorem half_life_halves (ac lat : gmap Key PyObject) ct hl k count t0 :
  exp_accurate_near_ln2 exp →
  numeric ac lat →
  (0 <? hl) = true → is_finite hl = true → is_finite (M_LN2 / hl) = true →
  count_of ac k = Some count → zero_or_normal count = true →
  last_time_of lat ct k = Some t0 → ct - t0 = hl →
  ∃ scores s, compute_hotness_scores ac lat ct hl = Ok scores ∧
    scores !! k = Some s ∧ within_1e9_of_half s count = true.
Proof.
  intros Hexp Hnum Hpos Hfin Hdc Hc Hcn Hl Hdt.
  destruct (compute_hotness_scores_lookup _ exp ac lat ct hl k count t0 Hnum Hc Hl)
    as (scores & Hrun & Hk).
  eexists scores, _. repeat split; try done.
  by apply score_after_half_life.
Qed.
End Claims.

(** * Part V: the properties on the example, and where the
    specification says more than the code does *)

Section Examples.
Local Open Scope float_scope.
#[local] Existing Instance exp_step_special.

Local Abbreviation run := (compute_hotness_scores py_cast exp_step).

Lemma example_counts_nonneg k count :
  count_of py_cast example_access_counts k = Some count → (0 <=? count) = true.
Proof.
  unfold count_of, example_access_counts. rewrite lookup_fmap.
  destruct (_ !! k) as [d|] eqn:Hk; [|done]. cbn. intros [= <-].
  apply lookup_insert_Some in Hk as [[_ <-]|[_ Hk]]; [done|].
  by apply lookup_singleton_Some in Hk as [_ <-].
Qed.

Lemma example_times_agree k :
  is_Some (example_access_counts !! k) →
  example_last_access_times !! k = stale_last_access_times !! k.
Proof.
  unfold example_access_counts. rewrite lookup_fmap. intros [v Hv].
  destruct (_ !! k) as [d|] eqn:Hk; [|done].
  apply lookup_insert_Some in Hk as [[<- _]|[_ Hk]]; [done|].
  by apply lookup_singleton_Some in Hk as [<- _].
Qed.

Lemma result_keys_example :
  ∃ scores, run example_access_counts stale_last_access_times 10 10 = Ok scores ∧
    dom scores = dom example_access_counts ∧
    ∀ k, is_Some (scores !! k) ↔ is_Some (example_access_counts !! k).
Proof. apply (result_keys py_cast exp_step). apply py_floats_numeric. Defined.

Lemma score_formula_example :
  ∃ scores, run example_access_counts example_last_access_times 10 10 = Ok scores ∧
    scores !! "a" = Some (spec_score exp_step 10 0 10 10).
Proof.
  apply (score_formula py_cast exp_step); [apply py_floats_numeric|reflexivity..].
Defined.

Lemma half_life_not_validated_example :
  (0 <=? 0) = true ∧
  ∃ scores, run example_access_counts example_last_access_times 10 0 = Ok scores ∧
    dom scores = dom example_access_counts.
Proof.
  split; [reflexivity|].
  apply (half_life_not_validated py_cast exp_step); [reflexivity|apply py_floats_numeric].
Defined.

Lemma zero_decay_exact_example :
  example_last_access_times !! "b" = None ∧
  ∃ scores, run example_access_counts example_last_access_times 10 10 = Ok scores ∧
    scores !! "b" = Some 4.
Proof.
  split; [reflexivity|].
  apply (zero_decay_exact py_cast exp_step);
    [apply py_floats_numeric|reflexivity..|left; reflexivity].
Defined.

Lemma negative_delta_clamped_example :
  (10 <? 20) = true ∧
  ∃ scores, run example_access_counts future_last_access_times 10 10 = Ok scores ∧
    scores !! "a" = Some 10.
Proof.
  split; [reflexivity|].
  apply (negative_delta_clamped py_cast exp_step _ _ 10 10 "a" 10 (PyFloat 20) 20);
    [apply py_floats_numeric|reflexivity..].
Defined.

Lemma scores_not_negative_example :
  ∃ scores, run example_access_counts example_last_access_times 10 10 = Ok scores ∧
    ∀ k s, scores !! k = Some s → (s <? 0) = false.
Proof.
  apply (scores_not_negative py_cast exp_step);
    [apply exp_step_nonnegative|apply py_floats_numeric|apply example_counts_nonneg].
Defined.

Lemma next_loc_fresh {A} (h : gmap loc A) : h !! next_loc h = None.
Proof. apply not_elem_of_dom, is_fresh. Qed.

(** The call on the heap of the example: the scores are a new object,
    the third. *)
Lemma call_on_example_heap :
  call_compute_hotness_scores py_cast exp_step PyFloat next_loc
    1%positive 2%positive 10 10 example_heap =
  (Ok 3%positive, <[3%positive := PyFloat <$> {["a" := 5; "b" := 4]}]> example_heap).
Proof. by vm_compute. Qed.

Lemma same_dictionaries_same_scores_example :
  let call := call_compute_hotness_scores py_cast exp_step PyFloat next_loc in
  returned (call 1%positive 2%positive 10 10 (call 1%positive 2%positive 10 10 example_heap).2) =
    returned (call 1%positive 2%positive 10 10 example_heap) ∧
  returned (call 9%positive 5%positive 10 10 moved_heap) =
    returned (call 1%positive 2%positive 10 10 example_heap) ∧
  (∀ l, is_Some (example_heap !! l) →
     (call 1%positive 2%positive 10 10 example_heap).2 !! l = example_heap !! l) ∧
  (∀ l, is_Some ((call 1%positive 2%positive 10 10 example_heap).2 !! l) →
     is_Some (example_heap !! l) ∨ (call 1%positive 2%positive 10 10 example_heap).1 = Ok l).
Proof.
  apply (same_dictionaries_same_scores py_cast exp_step PyFloat next_loc);
    [apply @next_loc_fresh|by eexists|by eexists|reflexivity|reflexivity].
Defined.

Lemma decay_monotone_example :
  (10 - 0 <=? 20 - 0) = true ∧
  ∃ scores1 scores2 s1 s2,
    run example_access_counts example_last_access_times 10 10 = Ok scores1 ∧
    run example_access_counts example_last_access_times 20 10 = Ok scores2 ∧
    scores1 !! "a" = Some s1 ∧ scores2 !! "a" = Some s2 ∧
    (s1 <? s2) = false.
Proof.
  split; [reflexivity|].
  apply (decay_monotone py_cast exp_step _ _ _ 10 20 10 "a" 10 0 0);
    [apply exp_step_monotone|apply py_floats_numeric|apply py_floats_numeric|reflexivity..].
Defined.

Lemma half_life_halves_example :
  (0 <? 10) = true ∧ 10 - 0 = 10 ∧
  ∃ scores s, run example_access_counts example_last_access_times 10 10 = Ok scores ∧
    scores !! "a" = Some s ∧ within_1e9_of_half s 10 = true.
Proof.
  split; [reflexivity|]. split; [reflexivity|].
  apply (half_life_halves py_cast exp_step _ _ 10 10 "a" 10 0);
    [apply exp_step_accurate|apply py_floats_numeric|reflexivity..].
Defined.

Lemma score_at_most_count_example :
  ∃ scores s, run example_access_counts example_last_access_times 10 10 = Ok scores ∧
    scores !! "a" = Some s ∧ (10 <? s) = false.
Proof.
  apply (score_at_most_count py_cast exp_step);
    [apply exp_step_monotone|apply py_floats_numeric|reflexivity..].
Defined.

(** The example of the specification: "a" decays to a half, "b" keeps
    its count. *)
Lemma specification_example :
  run example_access_counts example_last_access_times 10 10 =
  Ok {["a" := 5; "b" := 4]}.
Proof. by vm_compute. Qed.

(** C3, what the specification says: a zero or negative [half_life]
    is refused.  The code accepts both and returns scores. *)
Lemma half_life_zero_accepted :
  (0 <=? 0) = true ∧
  run example_access_counts example_last_access_times 10 0 =
    Ok {["a" := 0; "b" := nan]} ∧
  (-10 <=? 0) = true ∧
  ∃ scores, run example_access_counts example_last_access_times 10 (-10) = Ok scores.
Proof. repeat split; try by vm_compute. eexists. by vm_compute. Qed.

(** C4, what the specification says: with a positive [half_life] a
    key with no timestamp gets its count.  With the least positive
    double the decay constant overflows to infinity, [-inf * 0] is
    NaN, and so is the score of "b", whose count is 4. *)
Lemma zero_decay_overflow :
  (0 <? tiny_half_life) = true ∧
  example_last_access_times !! "b" = None ∧
  count_of py_cast example_access_counts "b" = Some 4 ∧
  run example_access_counts example_last_access_times 10 tiny_half_life =
    Ok {["a" := 0; "b" := nan]}.
Proof. repeat split; by vm_compute. Qed.

(** C5, what the specification says: with a positive [half_life] a
    key accessed after [current_time] gets its count.  With the least
    positive double the score of "a", whose count is 10, is NaN. *)
Lemma negative_delta_overflow :
  (0 <? tiny_half_life) = true ∧
  future_last_access_times !! "a" = Some (PyFloat 20) ∧ (10 <? 20) = true ∧
  count_of py_cast example_access_counts "a" = Some 10 ∧
  run example_access_counts future_last_access_times 10 tiny_half_life =
    Ok {["a" := nan; "b" := nan]}.
Proof. repeat split; by vm_compute. Qed.

(** C6, what the specification says: counts that are at least zero
    give scores that are at least zero.  Here the counts are 10 and 4
    and the score of "b" is NaN, which is not at least zero. *)
Lemma nan_score_of_nonnegative_count :
  (0 <=? 10) = true ∧ (0 <=? 4) = true ∧
  run example_access_counts example_last_access_times 10 tiny_half_life =
    Ok {["a" := 0; "b" := nan]} ∧
  (0 <=? nan) = false.
Proof. repeat split; by vm_compute. Qed.

(** C8, what the specification says: for any fixed count the score
    does not grow with the delta.  A count of -1 gives -1 at a delta
    of 0 and -1/2 after one half-life. *)
Lemma negative_count_grows :
  run penalized_access_counts example_last_access_times 0 1 = Ok {["a" := -1]} ∧
  run penalized_access_counts example_last_access_times 1 1 = Ok {["a" := -0.5]} ∧
  (0 <? 1) = true ∧ (0 - 0 <=? 1 - 0) = true ∧ (-1 <? -0.5) = true.
Proof. repeat split; by vm_compute. Qed.

(** C9, what the specification says: for a positive [half_life] and
    [current_time = t0 + half_life] the score is half the count within
    1e-9.  Four calls where it is not, each with the step function,
    which is 1/2 on the negative numbers.
    - The least positive half-life: the decay constant overflows, and
      the score of "a", whose count is 10, is 0.
    - A last access at 1e17 and a half-life of 1: the sum is 1e17
      again, the delta is 0, and the score of "a" is 10.
    - A count of 2^-1074: its half is not a double, and the score is 0.
    - An infinite half-life: the score is NaN. *)
Lemma half_life_misses :
  ((0 <? tiny_half_life) = true ∧
   run example_access_counts example_last_access_times (0 + tiny_half_life) tiny_half_life =
     Ok {["a" := 0; "b" := nan]} ∧
   within_1e9_of_half 0 10 = false) ∧
  ((0 <? 1) = true ∧
   run example_access_counts late_last_access_times (1e17 + 1) 1 =
     Ok {["a" := 10; "b" := 4]} ∧
   within_1e9_of_half 10 10 = false) ∧
  ((0 <? 1) = true ∧
   run subnormal_access_counts example_last_access_times (0 + 1) 1 = Ok {["a" := 0]} ∧
   within_1e9_of_half 0 0x1p-1074 = false) ∧
  ((0 <? infinity) = true ∧
   run example_access_counts example_last_access_times (0 + infinity) infinity =
     Ok {["a" := nan; "b" := nan]} ∧
   within_1e9_of_half nan 10 = false).
Proof. repeat split; by vm_compute. Qed.
End Examples.

(** * Part VI: further properties of the scorer *)

(** ** Errors, and how calls compose *)

Section Composition.
Local Open Scope float_scope.
Context `{Countable Key} {PyObject : Type}.
Variable cast_double : PyObject → option float.
Variable exp : float → float.

Local Abbreviation item_score := (item_score cast_double exp).
Local Abbreviation score_items := (score_items cast_double exp).
Local Abbreviation compute_hotness_scores := (compute_hotness_scores cast_double exp).
Local Abbreviation last_time_of := (last_time_of cast_double).
Local Abbreviation count_of := (count_of cast_double).
Local Abbreviation numeric := (numeric cast_double).

Lemma item_score_Raise (lat : gmap Key PyObject) ct dc k v e :
  item_score lat ct dc k v = Raise e ↔
  cast_double v = None ∨ ∃ t, lat !! k = Some t ∧ cast_double t = None.
Proof.
  unfold item_score, cast, mbind, result_bind.
  destruct (cast_double v) as [count|]; cbn.
  - destruct (lat !! k) as [t|]; cbn.
    + destruct (cast_double t) as [lt|] eqn:Ht; cbn.
      * split; [done|]. intros [?|(t' & [= <-] & ?)]; congruence.
      * destruct e. split; [|done]. intros _. right. by exists t.
    + split; [done|]. by intros [?|(? & ? & _)].
  - destruct e. split; [by left|done].
Qed.

Lemma score_items_Raise (lat : gmap Key PyObject) ct dc items scores e :
  score_items lat ct dc items scores = Raise e ↔
  ∃ k v, (k, v) ∈ items ∧ item_score lat ct dc k v = Raise e.
Proof.
  revert scores. induction items as [|[k0 v0] items IH]; intros scores; cbn.
  - split; [done|]. by intros (k & v & Hin%elem_of_nil & _).
  - unfold mbind, result_bind.
    destruct (item_score lat ct dc k0 v0) as [s0|e0] eqn:Hs0.
    + rewrite IH. split; intros (k & v & Hin & Hr); exists k, v.
      * split; [by right|done].
      * apply elem_of_cons in Hin as [[= -> ->]|Hin]; [congruence|done].
    + destruct e, e0. split; [|done]. intros _. exists k0, v0. split; [left|done].
Qed.

(** The scores of a call, key by key. *)
Lemma compute_hotness_scores_Ok_iff (ac lat : gmap Key PyObject) ct hl scores :
  compute_hotness_scores ac lat ct hl = Ok scores ↔
  ∀ k, match ac !! k with
       | Some v => ∃ s, item_score lat ct (M_LN2 / hl) k v = Ok s ∧ scores !! k = Some s
       | None => scores !! k = None
       end.
Proof.
  split.
  - intros [Hin Hout]%compute_hotness_scores_Ok k.
    destruct (ac !! k) as [v|] eqn:Hk; [by apply Hin|by apply Hout].
  - intros Hall.
    destruct (score_items_returns cast_double exp lat ct (M_LN2 / hl) (map_to_list ac) ∅)
      as [scores' Hrun].
    { intros k v Hkv%elem_of_map_to_list. specialize (Hall k). rewrite Hkv in Hall.
      destruct Hall as (s & Hs & _). by exists s. }
    change (compute_hotness_scores ac lat ct hl = Ok scores') in Hrun.
    rewrite Hrun. f_equal. apply map_eq. intros k.
    apply compute_hotness_scores_Ok in Hrun as [Hin Hout].
    specialize (Hall k). destruct (ac !! k) as [v|] eqn:Hk.
    + destruct Hall as (s & Hs & ->). destruct (Hin k v Hk) as (s' & Hs' & ->). congruence.
    + rewrite Hall. by apply Hout.
Qed.

(** X1. A call raises the conversion error exactly when a count does
    not convert to a double, or the timestamp of a key that has a
    count does not; a timestamp of a key without a count is never
    looked at.  In every other case the call returns scores. *)
Theorem cast_error_iff (ac lat : gmap Key PyObject) ct hl :
  (compute_hotness_scores ac lat ct hl = Raise cast_error ↔
   ∃ k v, ac !! k = Some v ∧
     (cast_double v = None ∨ ∃ t, lat !! k = Some t ∧ cast_double t = None)) ∧
  ((∃ scores, compute_hotness_scores ac lat ct hl = Ok scores) ↔ numeric ac lat).
Proof.
  split.
  - unfold compute_hotness_scores. rewrite score_items_Raise.
    split; intros (k & v & Hkv & Hr); exists k, v.
    + split; [by apply elem_of_map_to_list|by eapply item_score_Raise].
    + split; [by apply elem_of_map_to_list|by apply item_score_Raise].
  - split; [intros [scores Hrun]; by eapply compute_hotness_scores_numeric|].
    apply compute_hotness_scores_returns.
Qed.

(** X2. Scoring in batches: the scores of two disjoint sets of counts,
    computed by two calls, are together the scores of one call on
    their union. *)
Theorem batches_compose (ac1 ac2 lat : gmap Key PyObject) ct hl scores1 scores2 :
  ac1 ##ₘ ac2 →
  compute_hotness_scores ac1 lat ct hl = Ok scores1 →
  compute_hotness_scores ac2 lat ct hl = Ok scores2 →
  compute_hotness_scores (ac1 ∪ ac2) lat ct hl = Ok (scores1 ∪ scores2).
Proof.
  intros Hdisj H1 H2.
  pose proof (proj1 (compute_hotness_scores_Ok_iff _ _ _ _ _) H1) as G1.
  pose proof (proj1 (compute_hotness_scores_Ok_iff _ _ _ _ _) H2) as G2.
  clear H1 H2. apply compute_hotness_scores_Ok_iff. intros k.
  pose proof (G1 k) as H1. pose proof (G2 k) as H2.
  destruct (ac1 !! k) as [v1|] eqn:Hk1.
  - rewrite (lookup_union_Some_l _ _ _ _ Hk1).
    destruct H1 as (s & Hs & Hl). exists s. split; [done|].
    by apply lookup_union_Some_l.
  - rewrite (lookup_union_r _ _ _ Hk1). destruct (ac2 !! k) as [v2|] eqn:Hk2.
    + destruct H2 as (s & Hs & Hl). exists s. split; [done|].
      by rewrite (lookup_union_r _ _ _ H1).
    + by rewrite (lookup_union_r _ _ _ H1).
Qed.

(** X3. Setting the count of one key, new or not, sets the score of
    that key and leaves every other score as it was. *)
Theorem count_update_is_local (ac lat : gmap Key PyObject) ct hl scores k v count last_time :
  compute_hotness_scores ac lat ct hl = Ok scores →
  cast_double v = Some count →
  last_time_of lat ct k = Some last_time →
  compute_hotness_scores (<[k := v]> ac) lat ct hl =
    Ok (<[k := spec_score exp count last_time ct hl]> scores).
Proof.
  intros Hrun Hc Hl.
  pose proof (proj1 (compute_hotness_scores_Ok_iff _ _ _ _ _) Hrun) as G. clear Hrun.
  apply compute_hotness_scores_Ok_iff. intros k'. pose proof (G k') as Hrun.
  destruct (decide (k = k')) as [<-|Hne].
  - rewrite !lookup_insert_eq. eexists. split; [|done].
    apply item_score_Ok. by exists count, last_time.
  - rewrite !lookup_insert_ne by done. apply Hrun.
Qed.

(** X4. Dropping the count of a key drops its score and leaves every
    other score as it was. *)
Theorem count_removal_is_local (ac lat : gmap Key PyObject) ct hl scores k :
  compute_hotness_scores ac lat ct hl = Ok scores →
  compute_hotness_scores (delete k ac) lat ct hl = Ok (delete k scores).
Proof.
  intros Hrun.
  pose proof (proj1 (compute_hotness_scores_Ok_iff _ _ _ _ _) Hrun) as G. clear Hrun.
  apply compute_hotness_scores_Ok_iff. intros k'. pose proof (G k') as Hrun.
  destruct (decide (k = k')) as [<-|Hne].
  - by rewrite !lookup_delete_eq.
  - rewrite !lookup_delete_ne by done. apply Hrun.
Qed.

(** X5. Recording an access: a new timestamp for a key that has a
    count changes the score of that key, to the score of the new
    timestamp, and no other score. *)
Theorem access_update_is_local (ac lat : gmap Key PyObject) ct hl scores k o count t :
  compute_hotness_scores ac lat ct hl = Ok scores →
  count_of ac k = Some count →
  cast_double o = Some t →
  compute_hotness_scores ac (<[k := o]> lat) ct hl =
    Ok (<[k := spec_score exp count t ct hl]> scores).
Proof.
  intros Hrun Hc Ht.
  pose proof (proj1 (compute_hotness_scores_Ok_iff _ _ _ _ _) Hrun) as G. clear Hrun.
  apply compute_hotness_scores_Ok_iff. intros k'. pose proof (G k') as Hrun.
  destruct (decide (k = k')) as [<-|Hne].
  - unfold count_of in Hc. destruct (ac !! k) as [v|]; [cbn in Hc|done].
    rewrite lookup_insert_eq. eexists. split; [|done].
    apply item_score_Ok. exists count, t. split; [done|].
    unfold last_time_of. by rewrite lookup_insert_eq.
  - rewrite lookup_insert_ne by done. destruct (ac !! k') as [v|]; [|done].
    destruct Hrun as (s & Hs & Hl). exists s. split; [|done].
    rewrite <- Hs. unfold item_score. by rewrite lookup_insert_ne.
Qed.

(** X12. The timestamps of keys that have no count are not consulted:
    two calls whose [last_access_times] agree on the keys of
    [access_counts] return the same scores, or both throw. *)
Theorem unscored_timestamps_ignored (ac lat lat' : gmap Key PyObject) ct hl :
  (∀ k, is_Some (ac !! k) → lat !! k = lat' !! k) →
  compute_hotness_scores ac lat ct hl = compute_hotness_scores ac lat' ct hl.
Proof.
  intros Hag. apply score_items_agree. intros k v Hkv%elem_of_map_to_list.
  apply Hag. by eexists.
Qed.
End Composition.

(** ** More binary64 arithmetic *)

Section MoreBinary64.
Local Open Scope Z_scope.

Lemma SFsub_diag x : SFfinite x → SFsub prec emax x x = S754_zero false.
Proof.
  destruct x as [[]|[]| |s m e]; cbn [SFfinite]; try tauto; intros _; try reflexivity.
  cbn [SFsub]. by rewrite Z.sub_diag.
Qed.

Lemma SFmul_comm x y : SFmul prec emax x y = SFmul prec emax y x.
Proof.
  destruct x as [sx|sx| |sx mx ex], y as [sy|sy| |sy my ey]; cbn [SFmul];
    rewrite ?(xorb_comm sy sx); try reflexivity.
  by rewrite (Pos.mul_comm my mx), (Z.add_comm ey ex).
Qed.

Lemma SFopp_involutive x : SFopp (SFopp x) = x.
Proof. destruct x as [s|s| |s m e]; cbn; by rewrite ?negb_involutive. Qed.

Lemma SFltb_opp x y : SFltb (SFopp x) (SFopp y) = SFltb y x.
Proof. unfold SFltb. by rewrite SFcompare_opp. Qed.

Lemma SFleb_opp x y : SFleb (SFopp x) (SFopp y) = SFleb y x.
Proof. unfold SFleb. by rewrite SFcompare_opp. Qed.

Lemma SFltb_zero_opp x :
  SFltb x (S754_zero false) = false → SFltb (S754_zero false) (SFopp x) = false.
Proof. destruct x as [[]|[]| |[] m e]; cbn; congruence. Qed.
End MoreBinary64.

Section MoreDoubles.
Local Open Scope float_scope.

Lemma is_nan_inv x : is_nan x = true → x = nan.
Proof.
  unfold is_nan. rewrite FloatAxioms.eqb_spec. unfold SFeqb. intros Hx.
  apply Prim2SF_nan_inv. destruct (Prim2SF x) as [s|s| |s m e] eqn:E; [..|done| ];
    rewrite SFcompare_refl in Hx; done.
Qed.

Lemma sub_diag_finite x : is_finite x = true → x - x = 0.
Proof.
  intros Hx%is_finite_SF. apply Prim2SF_inj. rewrite sub_spec. by apply SFsub_diag.
Qed.

Lemma mul_comm x y : x * y = y * x.
Proof. apply Prim2SF_inj. rewrite !mul_spec. apply SFmul_comm. Qed.

Lemma mul_opp_l x y : - x * y = - (x * y).
Proof. apply Prim2SF_inj. by rewrite opp_spec, !mul_spec, opp_spec, SFmul_opp_l. Qed.

Lemma opp_involutive x : - - x = x.
Proof. apply Prim2SF_inj. by rewrite !opp_spec, SFopp_involutive. Qed.

Lemma ltb_opp x y : (- x <? - y) = (y <? x).
Proof. by rewrite !ltb_spec, !opp_spec, SFltb_opp. Qed.

Lemma leb_opp_0 x : (x <=? 0) = true → (0 <=? - x) = true.
Proof.
  rewrite !leb_spec, opp_spec. change (Prim2SF 0) with (SFopp (S754_zero true)).
  rewrite SFleb_opp. by destruct (Prim2SF x) as [[]|[]| |[] ? ?].
Qed.

Lemma mul_nan_l x : nan * x = nan.
Proof. apply Prim2SF_inj. by rewrite mul_spec. Qed.

Lemma sub_nan_l x : nan - x = nan.
Proof. apply Prim2SF_inj. by rewrite sub_spec. Qed.

Lemma div_nan_r x : x / nan = nan.
Proof.
  apply Prim2SF_inj. rewrite div_spec. change (Prim2SF nan) with S754_nan.
  by destruct (Prim2SF x).
Qed.

(** Multiplication keeps the order of its left operands. *)
Lemma mul_mono_l c1 c2 e :
  (e <? 0) = false → (0 <=? c1) = true → (c1 <=? c2) = true →
  (c2 * e <? c1 * e) = false.
Proof.
  intros He Hc1 Hc. rewrite (mul_comm c2), (mul_comm c1), ltb_spec, !mul_spec.
  rewrite ltb_spec in He. change (Prim2SF 0) with (S754_zero false) in He.
  destruct (Prim2SF e) eqn:Ee.
  1,2,4: apply SFmul_mono_nonneg; rewrite <- ?Ee; try apply Prim2SF_valid;
    [rewrite Ee; apply SFnonneg_iff; by split|by apply leb_0_nonneg|by rewrite <- leb_spec].
  reflexivity.
Qed.
End MoreDoubles.

(** ** Ranking, clock skew and NaN *)

Section Ranking.
Local Open Scope float_scope.
Context `{Countable Key} {PyObject : Type}.
Variable cast_double : PyObject → option float.
Variable exp : float → float.

Local Abbreviation item_score := (item_score cast_double exp).
Local Abbreviation score_items := (score_items cast_double exp).
Local Abbreviation compute_hotness_scores := (compute_hotness_scores cast_double exp).
Local Abbreviation last_time_of := (last_time_of cast_double).
Local Abbreviation count_of := (count_of cast_double).
Local Abbreviation numeric := (numeric cast_double).

Lemma score_items_ext (lat lat' : gmap Key PyObject) ct dc items scores :
  (∀ k v, (k, v) ∈ items → item_score lat ct dc k v = item_score lat' ct dc k v) →
  score_items lat ct dc items scores = score_items lat' ct dc items scores.
Proof.
  revert scores. induction items as [|[k0 v0] items IH]; intros scores Hag; [done|].
  cbn. rewrite (Hag k0 v0) by left.
  unfold mbind, result_bind. destruct (item_score lat' ct dc k0 v0); [|done].
  apply IH. intros k v Hkv. apply (Hag k v). by right.
Qed.

(** Two keys of one call, with its scores. *)
Lemma compute_hotness_scores_lookup2 (ac lat : gmap Key PyObject) ct hl k1 k2 c1 c2 t1 t2 :
  numeric ac lat →
  count_of ac k1 = Some c1 → last_time_of lat ct k1 = Some t1 →
  count_of ac k2 = Some c2 → last_time_of lat ct k2 = Some t2 →
  ∃ scores, compute_hotness_scores ac lat ct hl = Ok scores ∧
    scores !! k1 = Some (c1 * exp (- (M_LN2 / hl) * max_0 (ct - t1))) ∧
    scores !! k2 = Some (c2 * exp (- (M_LN2 / hl) * max_0 (ct - t2))).
Proof.
  intros Hnum Hc1 Hl1 Hc2 Hl2.
  destruct (compute_hotness_scores_lookup _ exp ac lat ct hl k1 c1 t1 Hnum Hc1 Hl1)
    as (scores & Hrun & Hk1).
  destruct (compute_hotness_scores_lookup _ exp ac lat ct hl k2 c2 t2 Hnum Hc2 Hl2)
    as (scores' & Hrun' & Hk2).
  exists scores. repeat split; [done..|]. congruence.
Qed.

(** X6. Clock skew: with a finite [current_time], a timestamp that
    lies in the future counts as no timestamp at all.  Removing it
    changes nothing in the result, whatever [half_life] is. *)
Theorem future_timestamp_as_none (ac lat : gmap Key PyObject) ct hl k o t :
  is_finite ct = true →
  lat !! k = Some o → cast_double o = Some t → (ct <? t) = true →
  compute_hotness_scores ac lat ct hl = compute_hotness_scores ac (delete k lat) ct hl.
Proof.
  intros Hct Ho Ht Hlt. apply score_items_ext. intros k' v _.
  unfold item_score, cast, mbind, result_bind.
  destruct (decide (k = k')) as [<-|Hne]; [|by rewrite lookup_delete_ne].
  rewrite lookup_delete_eq, Ho, Ht. destruct (cast_double v); [|done].
  by rewrite (sub_lt_neg _ _ Hlt), (sub_diag_finite _ Hct).
Qed.

(** X7. Frequency ranking: of two keys last accessed at the same
    time, the one with the larger count does not get the smaller
    score, for counts that are at least zero. *)
Theorem larger_count_not_colder (ac lat : gmap Key PyObject) ct hl k1 k2 c1 c2 t :
  exp_nonnegative exp →
  numeric ac lat →
  count_of ac k1 = Some c1 → count_of ac k2 = Some c2 →
  (0 <=? c1) = true → (c1 <=? c2) = true →
  last_time_of lat ct k1 = Some t → last_time_of lat ct k2 = Some t →
  ∃ scores s1 s2, compute_hotness_scores ac lat ct hl = Ok scores ∧
    scores !! k1 = Some s1 ∧ scores !! k2 = Some s2 ∧ (s2 <? s1) = false.
Proof.
  intros Hexp Hnum Hc1 Hc2 H0 Hle Hl1 Hl2.
  destruct (compute_hotness_scores_lookup2 ac lat ct hl k1 k2 c1 c2 t t Hnum Hc1 Hl1 Hc2 Hl2)
    as (scores & Hrun & Hk1 & Hk2).
  eexists scores, _, _. repeat split; [done..|]. by apply mul_mono_l.
Qed.

(** X9. A count that is at most zero gives a score between the count
    and zero: the score is not below the count and not above zero. *)
Theorem nonpositive_count_bounds `{!IEC60559_exp exp} (ac lat : gmap Key PyObject) ct hl k count :
  exp_monotone exp →
  numeric ac lat →
  (0 <? hl) = true →
  count_of ac k = Some count → (count <=? 0) = true →
  ∃ scores s, compute_hotness_scores ac lat ct hl = Ok scores ∧
    scores !! k = Some s ∧ (s <? count) = false ∧ (0 <? s) = false.
Proof.
  intros Hmono Hnum Hhl Hc Hneg.
  assert (∃ t, last_time_of lat ct k = Some t) as [t Hl].
  { unfold count_of in Hc. destruct (ac !! k) as [v|] eqn:Hk; [|done].
    destruct (Hnum k v Hk) as [_ Hlat]. unfold last_time_of.
    destruct (lat !! k) as [o|]; [|by eexists]. destruct (Hlat o) as [? ->]; [done|by eexists]. }
  destruct (compute_hotness_scores_lookup _ exp ac lat ct hl k count t Hnum Hc Hl)
    as (scores & Hrun & Hk).
  eexists scores, _. repeat split; [done..| |].
  - rewrite <- (opp_involutive count) at 1 2. rewrite mul_opp_l, ltb_opp.
    apply score_le_count;
      first [done | by apply leb_opp_0 | apply max_0_not_neg
            | apply div_pos_not_neg; [apply M_LN2_not_neg|done]].
  - rewrite <- (opp_involutive count), mul_opp_l.
    pose proof (score_not_negative exp (- count) (- (M_LN2 / hl) * max_0 (ct - t))
      (exp_monotone_nonnegative exp Hmono) (leb_opp_0 _ Hneg)) as Hs.
    rewrite ltb_spec in Hs |- *. rewrite opp_spec. by apply SFltb_zero_opp.
Qed.

(** X10. A NaN [current_time] or [half_life] raises nothing: the call
    returns, and every score is NaN. *)
Theorem nan_argument_poisons `{!IEC60559_exp exp} (ac lat : gmap Key PyObject) ct hl :
  numeric ac lat →
  is_nan ct = true ∨ is_nan hl = true →
  ∃ scores, compute_hotness_scores ac lat ct hl = Ok scores ∧
    dom scores = dom ac ∧ ∀ k s, scores !! k = Some s → s = nan.
Proof.
  intros Hnum Hnan.
  destruct (compute_hotness_scores_returns _ exp ac lat ct hl Hnum) as [scores Hrun].
  exists scores. split; [done|]. split; [by eapply compute_hotness_scores_dom|].
  intros k s Hs. pose proof Hrun as [Hin Hout]%compute_hotness_scores_Ok.
  destruct (ac !! k) as [v|] eqn:Hk; [|by rewrite (Hout k Hk) in Hs].
  destruct (Hin k v Hk) as (s' & (c & l & Hc & Hl & ->)%item_score_Ok & Hs').
  assert (s = c * exp (- (M_LN2 / hl) * max_0 (ct - l))) as -> by congruence.
  destruct Hnan as [->%is_nan_inv | ->%is_nan_inv].
  - rewrite sub_nan_l. change (max_0 nan) with nan.
    by rewrite mul_nan_r, exp_nan, mul_nan_r.
  - rewrite div_nan_r. change (- nan) with nan.
    by rewrite mul_nan_l, exp_nan, mul_nan_r.
Qed.
End Ranking.

(** ** Subtraction keeps the order *)

Section Subtraction.
Local Open Scope Z_scope.

Lemma scaled_le_at z1 e1 z2 e2 a :
  a <= e1 → a <= e2 →
  scaled_le z1 e1 z2 e2 ↔ z1 * 2 ^ (e1 - a) <= z2 * 2 ^ (e2 - a).
Proof.
  intros H1 H2. unfold scaled_le. set (m := Z.min e1 e2).
  assert (a <= m) by lia.
  replace (e1 - a) with ((e1 - m) + (m - a)) by lia.
  replace (e2 - a) with ((e2 - m) + (m - a)) by lia.
  rewrite !Z.pow_add_r, !Z.mul_assoc by lia.
  assert (0 < 2 ^ (m - a)) by (apply Z.pow_pos_nonneg; lia).
  split; [intros; by apply Z.mul_le_mono_nonneg_r; [lia|]|].
  intros Hle. by apply Z.mul_le_mono_pos_r in Hle.
Qed.

(** [binary_round] is [round_fin] of the same number, written with an
    exponent that needs no shift to the left. *)
Lemma binary_round_spec s m e :
  let E := Z.min e (fexp prec emax (Z.log2 (Zpos m) + 1 + e)) in
  binary_round prec emax s m e = round_fin s (Zpos m * 2 ^ (e - E)) E ∧
  E <= fexp prec emax (Z.log2 (Zpos m * 2 ^ (e - E)) + 1 + E).
Proof.
  intros E. unfold binary_round.
  pose proof (shl_align_spec m e (fexp prec emax (Z.pos (digits2_pos m) + e))) as [H2 H1].
  destruct (shl_align _ _ _) as [mz ez]. cbn [fst snd] in *.
  rewrite digits2_pos_log2 in H2. fold E in H2. subst ez.
  assert (HL : Z.log2 (Z.pos m * 2 ^ (e - E)) + 1 + E = Z.log2 (Z.pos m) + 1 + e).
  { rewrite Z.log2_mul_pow2 by lia. lia. }
  rewrite HL. split; [|lia].
  rewrite H1. apply binary_round_aux_spec.
  - apply Z.mul_pos_pos; [lia|apply Z.pow_pos_nonneg; lia].
  - rewrite HL. lia.
Qed.

Lemma binary_round_mono m1 e1 m2 e2 :
  scaled_le (Zpos m1) e1 (Zpos m2) e2 →
  SFleb (binary_round prec emax false m1 e1) (binary_round prec emax false m2 e2) = true.
Proof.
  intros Hle.
  destruct (binary_round_spec false m1 e1) as [-> T1].
  destruct (binary_round_spec false m2 e2) as [-> T2].
  set (E1 := Z.min e1 (fexp prec emax (Z.log2 (Z.pos m1) + 1 + e1))) in *.
  set (E2 := Z.min e2 (fexp prec emax (Z.log2 (Z.pos m2) + 1 + e2))) in *.
  set (E0 := Z.min E1 E2).
  assert (P1 : 0 < Z.pos m1 * 2 ^ (e1 - E1))
    by (apply Z.mul_pos_pos; [lia|apply Z.pow_pos_nonneg; lia]).
  assert (P2 : 0 < Z.pos m2 * 2 ^ (e2 - E2))
    by (apply Z.mul_pos_pos; [lia|apply Z.pow_pos_nonneg; lia]).
  rewrite <- (round_fin_shift false _ E1 (E1 - E0)) by (try done; lia).
  rewrite <- (round_fin_shift false _ E2 (E2 - E0)) by (try done; lia).
  replace (E1 - (E1 - E0)) with E0 by lia. replace (E2 - (E2 - E0)) with E0 by lia.
  rewrite <- !Z.mul_assoc, <- !Z.pow_add_r by lia.
  replace (e1 - E1 + (E1 - E0)) with (e1 - E0) by lia.
  replace (e2 - E2 + (E2 - E0)) with (e2 - E0) by lia.
  apply round_fin_mono.
  - apply Z.mul_pos_pos; [lia|apply Z.pow_pos_nonneg; lia].
  - apply (scaled_le_at _ e1 _ e2 E0); [lia..|done].
  - rewrite Z.log2_mul_pow2 by lia.
    rewrite Z.log2_mul_pow2 in T1 by lia.
    replace (e1 - E0 + Z.log2 (Z.pos m1) + 1 + E0) with (e1 - E1 + Z.log2 (Z.pos m1) + 1 + E1) by lia.
    lia.
Qed.

Lemma binary_round_opp s m e :
  SFopp (binary_round prec emax s m e) = binary_round prec emax (negb s) m e.
Proof.
  unfold binary_round. destruct (shl_align _ _ _) as [mz ez]. apply binary_round_aux_opp.
Qed.

Lemma binary_round_nonneg m e : SFnonneg (binary_round prec emax false m e) = true.
Proof. destruct (binary_round_spec false m e) as [-> _]. apply round_fin_nonneg. Qed.

Lemma SFleb_opp_nonneg x y : SFnonneg x = true → SFnonneg y = true → SFleb (SFopp x) y = true.
Proof. destruct x as [[]|[]| |[] ? ?], y as [[]|[]| |[] ? ?]; cbn; congruence. Qed.

(** Rounding an integer with an exponent keeps the order. *)
Lemma binary_normalize_mono z1 e1 z2 e2 :
  scaled_le z1 e1 z2 e2 →
  SFleb (binary_normalize prec emax z1 e1 false) (binary_normalize prec emax z2 e2 false) = true.
Proof.
  unfold scaled_le. intros Hle.
  assert (0 < 2 ^ (e1 - Z.min e1 e2)) by (apply Z.pow_pos_nonneg; lia).
  assert (0 < 2 ^ (e2 - Z.min e1 e2)) by (apply Z.pow_pos_nonneg; lia).
  destruct z1 as [|p1|p1], z2 as [|p2|p2]; cbn [binary_normalize]; try nia; try reflexivity.
  - apply binary_round_nonneg.
  - by apply binary_round_mono.
  - rewrite <- (binary_round_opp false). cbn.
    pose proof (binary_round_nonneg p1 e1) as Hn.
    by destruct (binary_round _ _ false p1 e1) as [[]|[]| |[] ? ?].
  - rewrite <- (binary_round_opp false p1). apply SFleb_opp_nonneg; apply binary_round_nonneg.
  - rewrite <- (binary_round_opp false p1), <- (binary_round_opp false p2), SFleb_opp.
    apply binary_round_mono. unfold scaled_le. rewrite (Z.min_comm e2 e1). lia.
Qed.

Lemma binary_normalize_canonical s m e :
  bounded prec emax m e = true →
  binary_normalize prec emax (cond_Zopp s (Zpos m)) e false = S754_finite s m e.
Proof.
  intros Hb. pose proof Hb as [Hc He]%bounded_iff.
  assert (binary_round prec emax s m e = S754_finite s m e) as Hr.
  { destruct (binary_round_spec s m e) as [-> _]. rewrite Hc, Z.min_id, Z.sub_diag, Z.mul_1_r.
    by apply round_fin_canonical. }
  by destruct s.
Qed.

Lemma cond_Zopp_mul s a b : cond_Zopp s a * b = cond_Zopp s (a * b).
Proof. destruct s; cbn; lia. Qed.

(** A difference of finite numbers is the exact difference, rounded. *)
Lemma SFsub_repr c x :
  valid_binary c = true → valid_binary x = true → SFfinite c → SFfinite x →
  let e := Z.min (SFrepr c).2 (SFrepr x).2 in
  SFunsigned_zero (SFsub prec emax c x) =
  SFunsigned_zero (binary_normalize prec emax
    ((SFrepr c).1 * 2 ^ ((SFrepr c).2 - e) - (SFrepr x).1 * 2 ^ ((SFrepr x).2 - e)) e false).
Proof.
  intros Vc Vx Fc Fx.
  destruct c as [sc|sc| |sc mc ec], x as [sx|sx| |sx mx ex]; cbn [SFfinite] in *; try tauto;
    cbn [SFrepr fst snd valid_binary] in *.
  - cbn. by destruct sc, sx.
  - pose proof (bounded_log2 _ _ Vx) as (Bx & _).
    rewrite Z.min_r, Z.sub_diag, Z.pow_0_r, Z.mul_1_r, Z.mul_0_l, Z.sub_0_l by lia.
    replace (- cond_Zopp sx (Z.pos mx)) with (cond_Zopp (negb sx) (Z.pos mx)) by (by destruct sx).
    by rewrite binary_normalize_canonical.
  - pose proof (bounded_log2 _ _ Vc) as (Bc & _).
    rewrite Z.min_l, Z.sub_diag, Z.pow_0_r, Z.mul_1_r, Z.mul_0_l, Z.sub_0_r by lia.
    by rewrite binary_normalize_canonical.
  - cbn [SFsub]. do 3 f_equal.
    + pose proof (shl_align_spec mc ec (Z.min ec ex)) as [S1 ->].
      rewrite S1, cond_Zopp_mul. do 3 f_equal. lia.
    + pose proof (shl_align_spec mx ex (Z.min ec ex)) as [S2 ->].
      rewrite S2, cond_Zopp_mul. do 3 f_equal. lia.
Qed.

(** The order of two finite numbers is that of their values. *)
Lemma SFleb_repr x y :
  valid_binary x = true → valid_binary y = true → SFfinite x → SFfinite y →
  SFleb x y = true →
  scaled_le (SFrepr x).1 (SFrepr x).2 (SFrepr y).1 (SFrepr y).2.
Proof.
  intros Vx Vy Fx Fy Hle. unfold scaled_le.
  destruct x as [sx|sx| |sx mx ex], y as [sy|sy| |sy my ey]; cbn [SFfinite] in *; try tauto;
    cbn [SFrepr fst snd valid_binary] in *.
  - lia.
  - destruct sy; [discriminate|]. cbn.
    assert (0 < 2 ^ (ey - Z.min (emax - prec) ey)) by (apply Z.pow_pos_nonneg; lia). lia.
  - destruct sx; [|discriminate]. cbn.
    assert (0 < 2 ^ (ex - Z.min ex (emax - prec))) by (apply Z.pow_pos_nonneg; lia). lia.
  - assert (0 < 2 ^ (ex - Z.min ex ey)) by (apply Z.pow_pos_nonneg; lia).
    assert (0 < 2 ^ (ey - Z.min ex ey)) by (apply Z.pow_pos_nonneg; lia).
    destruct sx, sy; cbn [cond_Zopp]; try discriminate.
    + change (S754_finite true mx ex) with (SFopp (S754_finite false mx ex)) in Hle.
      change (S754_finite true my ey) with (SFopp (S754_finite false my ey)) in Hle.
      rewrite SFleb_opp in Hle.
      destruct (canonical_le _ _ _ _ Vy Vx Hle) as [He Hm].
      rewrite Z.min_r, Z.sub_diag by lia. lia.
    + lia.
    + destruct (canonical_le _ _ _ _ Vx Vy Hle) as [He Hm].
      rewrite Z.min_l, Z.sub_diag by lia. lia.
Qed.

Lemma SFltb_unsigned_zero x y :
  SFltb x y = SFltb (SFunsigned_zero x) (SFunsigned_zero y).
Proof. by destruct x as [[]|[]| |[] ? ?], y as [[]|[]| |[] ? ?]. Qed.

Lemma SFsub_antitone_finite c x y :
  valid_binary c = true → valid_binary x = true → valid_binary y = true →
  SFfinite c → SFfinite x → SFfinite y →
  SFleb x y = true →
  SFltb (SFsub prec emax c x) (SFsub prec emax c y) = false.
Proof.
  intros Vc Vx Vy Fc Fx Fy Hle.
  rewrite SFltb_unsigned_zero, (SFsub_repr c x), (SFsub_repr c y) by done.
  rewrite <- SFltb_unsigned_zero. apply SFleb_not_ltb, binary_normalize_mono.
  pose proof (SFleb_repr x y Vx Vy Fx Fy Hle) as Hxy.
  destruct (SFrepr c) as [zc ec], (SFrepr x) as [zx ex], (SFrepr y) as [zy ey].
  cbn [fst snd] in *.
  set (a := Z.min ec (Z.min ex ey)).
  apply (scaled_le_at _ _ _ _ a); [lia..|].
  apply (scaled_le_at _ _ _ _ a) in Hxy; [|lia..].
  rewrite !Z.mul_sub_distr_r, <- !Z.mul_assoc, <- !Z.pow_add_r by lia.
  replace (ec - Z.min ec ey + (Z.min ec ey - a)) with (ec - a) by lia.
  replace (ey - Z.min ec ey + (Z.min ec ey - a)) with (ey - a) by lia.
  replace (ec - Z.min ec ex + (Z.min ec ex - a)) with (ec - a) by lia.
  replace (ex - Z.min ec ex + (Z.min ec ex - a)) with (ex - a) by lia.
  lia.
Qed.

Lemma SFfinite_or x :
  SFfinite x ∨ x = S754_nan ∨ ∃ s, x = S754_infinity s.
Proof. destruct x; cbn; eauto. Qed.

Lemma SFltb_irrefl x : SFltb x x = false.
Proof.
  unfold SFltb. pose proof (SFcompare_swap x x) as Hs.
  destruct (SFcompare x x) as [[]|]; done.
Qed.

Lemma SFltb_ninf_r x : SFltb x (S754_infinity true) = false.
Proof. by destruct x as [[]|[]| |[] ? ?]. Qed.

Lemma SFltb_nan_r x : SFltb x S754_nan = false.
Proof. by destruct x as [[]|[]| |[] ? ?]. Qed.

(** Subtracting a larger number does not give a larger difference. *)
Lemma SFsub_antitone c x y :
  valid_binary c = true → valid_binary x = true → valid_binary y = true →
  SFleb x y = true →
  SFltb (SFsub prec emax c x) (SFsub prec emax c y) = false.
Proof.
  intros Vc Vx Vy Hle.
  destruct (SFfinite_or y) as [Fy|[->|[sy ->]]].
  - destruct (SFfinite_or x) as [Fx|[->|[sx ->]]].
    + destruct (SFfinite_or c) as [Fc|[->|[sc ->]]].
      * by apply SFsub_antitone_finite.
      * done.
      * destruct x as [?|?| |? ? ?], y as [?|?| |? ? ?]; try done; apply SFltb_irrefl.
    + done.
    + destruct sx; [|by destruct y as [[]|[]| |[] ? ?]].
      destruct c as [?|[]| |? ? ?]; try done; apply SFltb_pinf_l.
  - by destruct x as [[]|[]| |[] ? ?].
  - destruct sy.
    + destruct x as [[]|[]| |[] ? ?]; try done. apply SFltb_irrefl.
    + destruct c as [?|[]| |? ? ?]; cbn [SFsub negb];
        first [apply SFltb_ninf_r | apply SFltb_nan_r].
Qed.

Lemma SFsub_monotone_finite c1 c2 t :
  valid_binary c1 = true → valid_binary c2 = true → valid_binary t = true →
  SFfinite c1 → SFfinite c2 → SFfinite t →
  SFleb c1 c2 = true →
  SFltb (SFsub prec emax c2 t) (SFsub prec emax c1 t) = false.
Proof.
  intros V1 V2 Vt F1 F2 Ft Hle.
  rewrite SFltb_unsigned_zero, (SFsub_repr c1 t), (SFsub_repr c2 t) by done.
  rewrite <- SFltb_unsigned_zero. apply SFleb_not_ltb, binary_normalize_mono.
  pose proof (SFleb_repr c1 c2 V1 V2 F1 F2 Hle) as H12.
  destruct (SFrepr c1) as [z1 e1], (SFrepr c2) as [z2 e2], (SFrepr t) as [zt et].
  cbn [fst snd] in *.
  set (a := Z.min et (Z.min e1 e2)).
  apply (scaled_le_at _ _ _ _ a); [lia..|].
  apply (scaled_le_at _ _ _ _ a) in H12; [|lia..].
  rewrite !Z.mul_sub_distr_r, <- !Z.mul_assoc, <- !Z.pow_add_r by lia.
  replace (e1 - Z.min e1 et + (Z.min e1 et - a)) with (e1 - a) by lia.
  replace (et - Z.min e1 et + (Z.min e1 et - a)) with (et - a) by lia.
  replace (e2 - Z.min e2 et + (Z.min e2 et - a)) with (e2 - a) by lia.
  replace (et - Z.min e2 et + (Z.min e2 et - a)) with (et - a) by lia.
  lia.
Qed.

(** Subtracting from a larger number does not give a smaller difference. *)
Lemma SFsub_monotone c1 c2 t :
  valid_binary c1 = true → valid_binary c2 = true → valid_binary t = true →
  SFleb c1 c2 = true →
  SFltb (SFsub prec emax c2 t) (SFsub prec emax c1 t) = false.
Proof.
  intros V1 V2 Vt Hle.
  destruct (SFfinite_or t) as [Ft|[->|[st ->]]].
  - destruct (SFfinite_or c1) as [F1|[->|[s1 ->]]].
    + destruct (SFfinite_or c2) as [F2|[->|[s2 ->]]].
      * by apply SFsub_monotone_finite.
      * by destruct c1 as [[]|[]| |[] ? ?].
      * destruct s2; [by destruct c1 as [[]|[]| |[] ? ?]|].
        destruct t as [?|?| |? ? ?]; try done; apply SFltb_pinf_l.
    + done.
    + destruct s1.
      * destruct t as [?|?| |? ? ?]; try done; apply SFltb_ninf_r.
      * destruct c2 as [[]|[]| |[] ? ?]; try done.
        destruct t as [?|?| |? ? ?]; try done; apply SFltb_irrefl.
  - destruct c1 as [?|?| |? ? ?], c2 as [?|?| |? ? ?]; done.
  - destruct c1 as [?|[]| |? ? ?], c2 as [?|[]| |? ? ?], st; try done.
Qed.
End Subtraction.

(** ** Recency *)

Section Recency.
Local Open Scope float_scope.
Context `{Countable Key} {PyObject : Type}.
Variable cast_double : PyObject → option float.
Variable exp : float → float.
Context {exp_special : IEC60559_exp exp}.

Local Abbreviation compute_hotness_scores := (compute_hotness_scores cast_double exp).
Local Abbreviation last_time_of := (last_time_of cast_double).
Local Abbreviation count_of := (count_of cast_double).
Local Abbreviation numeric := (numeric cast_double).

Lemma sub_antitone c x y : (x <=? y) = true → (c - x <? c - y) = false.
Proof.
  rewrite leb_spec, ltb_spec, !sub_spec. apply SFsub_antitone; apply Prim2SF_valid.
Qed.

Lemma score_nan_delta count dc dt :
  Prim2SF dt = S754_nan → count * exp (- dc * max_0 dt) = nan.
Proof.
  intros ->%Prim2SF_nan_inv. change (max_0 nan) with nan.
  by rewrite mul_nan_r, exp_nan, mul_nan_r.
Qed.

(** The order of two scores from the order of their deltas, NaN or not. *)
Lemma score_antitone_total count dc dt1 dt2 :
  exp_monotone exp →
  (0 <=? count) = true → (dc <? 0) = false → (dt2 <? dt1) = false →
  (count * exp (- dc * max_0 dt1) <? count * exp (- dc * max_0 dt2)) = false.
Proof.
  intros Hmono Hc Hdc Hdt.
  destruct (Prim2SF dt1) eqn:E1; destruct (Prim2SF dt2) eqn:E2.
  all: try (rewrite (score_nan_delta count dc dt1) by done; apply ltb_nan_l).
  all: try (rewrite (score_nan_delta count dc dt2) by done; apply ltb_nan_r).
  all: apply score_antitone; try done; rewrite leb_spec; rewrite ltb_spec in Hdt;
    apply SFltb_false_leb; try done; by rewrite ?E1, ?E2.
Qed.

(** X8. Recency ranking: of two keys with the same count, at least
    zero, the one that was accessed later does not get the smaller
    score, for a positive [half_life]. *)
Theorem later_access_not_colder (ac lat : gmap Key PyObject) ct hl k1 k2 count t1 t2 :
  exp_monotone exp →
  numeric ac lat →
  (0 <? hl) = true →
  count_of ac k1 = Some count → count_of ac k2 = Some count → (0 <=? count) = true →
  last_time_of lat ct k1 = Some t1 → last_time_of lat ct k2 = Some t2 →
  (t1 <=? t2) = true →
  ∃ scores s1 s2, compute_hotness_scores ac lat ct hl = Ok scores ∧
    scores !! k1 = Some s1 ∧ scores !! k2 = Some s2 ∧ (s2 <? s1) = false.
Proof.
  intros Hmono Hnum Hhl Hc1 Hc2 Hpos Hl1 Hl2 Hle.
  destruct (compute_hotness_scores_lookup2 _ exp ac lat ct hl k1 k2 count count t1 t2
    Hnum Hc1 Hl1 Hc2 Hl2) as (scores & Hrun & Hk1 & Hk2).
  eexists scores, _, _. repeat split; [done..|].
  apply score_antitone_total; try done.
  - apply div_pos_not_neg; [apply M_LN2_not_neg|done].
  - by apply sub_antitone.
Qed.

Lemma sub_monotone c1 c2 t : (c1 <=? c2) = true → (c2 - t <? c1 - t) = false.
Proof.
  rewrite leb_spec, ltb_spec, !sub_spec. apply SFsub_monotone; apply Prim2SF_valid.
Qed.

Lemma sub_self x : x - x = 0 ∨ x - x = nan.
Proof.
  destruct (Prim2SF x) as [s|s| |s m e] eqn:Ex.
  - left. apply Prim2SF_inj. rewrite sub_spec, Ex. by apply SFsub_diag.
  - right. apply Prim2SF_inj. rewrite sub_spec, Ex. by destruct s.
  - right. apply Prim2SF_inj. by rewrite sub_spec, Ex.
  - left. apply Prim2SF_inj. rewrite sub_spec, Ex. by apply SFsub_diag.
Qed.

(** X11. Ageing: as [current_time] advances, with the same counts and
    timestamps, the score of a key whose count is at least zero does
    not grow, for a positive [half_life]. *)
Theorem scores_do_not_grow_with_time (ac lat : gmap Key PyObject) ct1 ct2 hl k count :
  exp_monotone exp →
  numeric ac lat →
  (0 <? hl) = true →
  count_of ac k = Some count → (0 <=? count) = true →
  (ct1 <=? ct2) = true →
  ∃ scores1 scores2 s1 s2,
    compute_hotness_scores ac lat ct1 hl = Ok scores1 ∧
    compute_hotness_scores ac lat ct2 hl = Ok scores2 ∧
    scores1 !! k = Some s1 ∧ scores2 !! k = Some s2 ∧
    (s1 <? s2) = false.
Proof.
  intros Hmono Hnum Hhl Hc Hpos Hle.
  assert (∃ t1 t2, last_time_of lat ct1 k = Some t1 ∧ last_time_of lat ct2 k = Some t2 ∧
            (ct2 - t2 <? ct1 - t1) = false) as (t1 & t2 & Hl1 & Hl2 & Hdt).
  { unfold count_of in Hc. destruct (ac !! k) as [v|] eqn:Hk; [|done].
    destruct (Hnum k v Hk) as [_ Hlat]. unfold last_time_of.
    destruct (lat !! k) as [o|].
    - destruct (Hlat o) as [t Ht]; [done|]. exists t, t. rewrite Ht.
      repeat split. by apply sub_monotone.
    - exists ct1, ct2. repeat split.
      destruct (sub_self ct1) as [-> | ->], (sub_self ct2) as [-> | ->]; done. }
  destruct (compute_hotness_scores_lookup _ exp ac lat ct1 hl k count t1 Hnum Hc Hl1)
    as (scores1 & Hrun1 & Hk1).
  destruct (compute_hotness_scores_lookup _ exp ac lat ct2 hl k count t2 Hnum Hc Hl2)
    as (scores2 & Hrun2 & Hk2).
  eexists scores1, scores2, _, _. repeat split; [done..|].
  apply score_antitone_total; try done.
  apply div_pos_not_neg; [apply M_LN2_not_neg|done].
Qed.
End Recency.

(** ** The further properties on the example *)

Section MoreExamples.
Local Open Scope float_scope.
#[local] Existing Instance exp_step_special.

Local Abbreviation run := (compute_hotness_scores py_cast exp_step).

Lemma batches_compose_example :
  run ({["a" := PyFloat 10]} ∪ {["b" := PyFloat 4]}) example_last_access_times 10 10 =
  Ok ({["a" := 5]} ∪ {["b" := 4]}).
Proof.
  apply (batches_compose py_cast exp_step).
  - by apply map_disjoint_singleton_l.
  - by vm_compute.
  - by vm_compute.
Defined.

Lemma count_update_is_local_example :
  run (<["c" := PyFloat 8]> example_access_counts) example_last_access_times 10 10 =
  Ok (<["c" := spec_score exp_step 8 10 10 10]> {["a" := 5; "b" := 4]}).
Proof.
  apply (count_update_is_local py_cast exp_step); [by vm_compute|reflexivity..].
Defined.

Lemma count_removal_is_local_example :
  run (delete "b" example_access_counts) example_last_access_times 10 10 =
  Ok (delete "b" {["a" := 5; "b" := 4]}).
Proof. apply (count_removal_is_local py_cast exp_step). by vm_compute. Defined.

Lemma access_update_is_local_example :
  run example_access_counts (<["a" := PyFloat 10]> example_last_access_times) 10 10 =
  Ok (<["a" := spec_score exp_step 10 10 10 10]> {["a" := 5; "b" := 4]}).
Proof.
  apply (access_update_is_local py_cast exp_step); [by vm_compute|reflexivity..].
Defined.

Lemma future_timestamp_as_none_example :
  (10 <? 20) = true ∧
  run example_access_counts future_last_access_times 10 10 =
  run example_access_counts (delete "a" future_last_access_times) 10 10.
Proof.
  split; [reflexivity|].
  by apply (future_timestamp_as_none py_cast exp_step _ _ 10 10 "a" (PyFloat 20) 20).
Defined.

Lemma larger_count_not_colder_example :
  (4 <=? 10) = true ∧
  ∃ scores s1 s2, run example_access_counts uniform_last_access_times 10 10 = Ok scores ∧
    scores !! "b" = Some s1 ∧ scores !! "a" = Some s2 ∧ (s2 <? s1) = false.
Proof.
  split; [reflexivity|].
  apply (larger_count_not_colder py_cast exp_step _ _ 10 10 "b" "a" 4 10 0);
    [apply exp_step_nonnegative|apply py_floats_numeric|reflexivity..].
Defined.

Lemma later_access_not_colder_example :
  (0 <=? 10) = true ∧
  ∃ scores s1 s2, run tied_access_counts example_last_access_times 10 10 = Ok scores ∧
    scores !! "a" = Some s1 ∧ scores !! "b" = Some s2 ∧ (s2 <? s1) = false.
Proof.
  split; [reflexivity|].
  apply (later_access_not_colder py_cast exp_step _ _ 10 10 "a" "b" 4 0 10);
    [apply exp_step_monotone|apply py_floats_numeric|reflexivity..].
Defined.

Lemma nonpositive_count_bounds_example :
  ∃ scores s, run penalized_access_counts example_last_access_times 1 1 = Ok scores ∧
    scores !! "a" = Some s ∧ (s <? -1) = false ∧ (0 <? s) = false.
Proof.
  apply (nonpositive_count_bounds py_cast exp_step _ _ 1 1 "a" (-1));
    [apply exp_step_monotone|apply py_floats_numeric|reflexivity..].
Defined.

Lemma nan_argument_poisons_example :
  ∃ scores, run example_access_counts example_last_access_times nan 10 = Ok scores ∧
    dom scores = dom example_access_counts ∧ ∀ k s, scores !! k = Some s → s = nan.
Proof.
  apply (nan_argument_poisons py_cast exp_step); [apply py_floats_numeric|by left].
Defined.

Lemma scores_do_not_grow_with_time_example :
  (10 <=? 20) = true ∧
  ∃ scores1 scores2 s1 s2,
    run example_access_counts example_last_access_times 10 10 = Ok scores1 ∧
    run example_access_counts example_last_access_times 20 10 = Ok scores2 ∧
    scores1 !! "a" = Some s1 ∧ scores2 !! "a" = Some s2 ∧ (s1 <? s2) = false.
Proof.
  split; [reflexivity|].
  apply (scores_do_not_grow_with_time py_cast exp_step _ _ 10 20 10 "a" 10);
    [apply exp_step_monotone|apply py_floats_numeric|reflexivity..].
Defined.

Lemma unscored_timestamps_ignored_example :
  run example_access_counts example_last_access_times 10 10 =
  run example_access_counts stale_last_access_times 10 10.
Proof. apply (unscored_timestamps_ignored py_cast exp_step). apply example_times_agree. Defined.
End MoreExamples.
